(** * CommandParser: a shallow embedding of CommandParser.h

    The header parses lines of the form [COMMAND_NAME ARG1 ARG2 ...] in
    fixed memory.  This file embeds [strToInt], [parseString],
    [registerCommand] and [processCommand] as functions over lists of
    characters and states the properties of the parser over them.

    Modelling conventions:
    - a C string is a [list ascii]; reading at or past its end yields the
      terminator, and a NUL inside the list is treated as the terminator
      by every reader, as in C;
    - a cursor ([const char *command], [buf + position]) is the suffix of
      the list that starts at the cursor;
    - [int64_t] and [uint64_t] are [Z]; every arithmetic store keeps the
      two's-complement wrap-around of the result ([wrap]), which is what
      the targets of the library compute where C++ leaves the overflow
      of a signed integer undefined;
    - [strtod] and [strtol] are libc code and parameters of the
      development, like the five size parameters of the class template;
    - a callback is a function on the argument array, the response
      buffer and a world that stands for everything else it can affect. *)

From Stdlib Require Import ZArith Ascii String List Lia Bool.
From Stdlib Require Import DecimalString DecimalZ DecimalN DecimalPos DecimalFacts.
From stdpp Require Import base list strings.

Local Open Scope char_scope.
Local Open Scope Z_scope.

(** ** Characters and C strings *)

Abbreviation cstring := (list ascii).

(** A string literal as a C string. *)
Definition lit (s : string) : cstring := list_ascii_of_string s.
Arguments lit s%_string.

Definition NUL : ascii := Ascii.zero.
Definition SPACE : ascii := " ".
Definition QUOTE : ascii := "034".
Definition BACKSLASH : ascii := "092".
Definition LF : ascii := "010".
Definition CR : ascii := "013".
Definition TAB : ascii := "009".

(** The numeric value of a [char]. *)
Definition code (c : ascii) : Z := Z.of_N (N_of_ascii c).

(** [*p] for a cursor [p]. *)
Definition peek (p : cstring) : ascii :=
  match p with
  | [] => NUL
  | c :: _ => c
  end.

(** The contents of a C string: the bytes before the first terminator. *)
Fixpoint c_str (s : cstring) : cstring :=
  match s with
  | [] => []
  | c :: s' => if Ascii.eqb c NUL then [] else c :: c_str s'
  end.

Definition strlen (s : cstring) : nat := length (c_str s).

(** [strcmp a b == 0] *)
Definition strcmp_eq (a b : cstring) : bool :=
  if decide (c_str a = c_str b) then true else false.

(** [strlcpy(dst, src, size)]: at most [size - 1] bytes and a terminator. *)
Definition strlcpy (src : cstring) (size : nat) : cstring :=
  take (size - 1)%nat (c_str src).

(** ** 64-bit integers *)

Inductive IntType := Int64 | UInt64.

Definition INT64_MIN : Z := - 2 ^ 63.
Definition INT64_MAX : Z := 2 ^ 63 - 1.
Definition UINT64_MAX : Z := 2 ^ 64 - 1.

(** What a store into a variable of type [T] keeps of a mathematical result. *)
Definition wrap (T : IntType) (z : Z) : Z :=
  match T with
  | Int64 => (z + 2 ^ 63) mod 2 ^ 64 - 2 ^ 63
  | UInt64 => z mod 2 ^ 64
  end.

(** ** strToInt *)

(** The digit chain at the head of the loop of [strToInt]:
    [None] is the [else { break; }] branch. *)
Definition next_digit (base : Z) (c : ascii) : option Z :=
  if (2 <=? base) && (code "0" <=? code c) && (code c <=? code "1")
  then Some (code c - code "0")
  else if (8 <=? base) && (code "2" <=? code c) && (code c <=? code "7")
  then Some ((code c - code "2") + 2)
  else if (10 <=? base) && (code "8" <=? code c) && (code c <=? code "9")
  then Some ((code c - code "8") + 8)
  else if (16 <=? base) && (code "a" <=? code c) && (code c <=? code "f")
  then Some ((code c - code "a") + 10)
  else if (16 <=? base) && (code "A" <=? code c) && (code c <=? code "F")
  then Some ((code c - code "A") + 10)
  else None.

(** The [while (true)] loop of [strToInt].  [buf] is the cursor
    [buf + position]; the result is the returned byte count and the final
    content of [*value]. *)
Fixpoint strToInt_loop (T : IntType) (min_value max_value base : Z)
    (isNegative : bool) (buf : cstring) (position : nat) (digit value : Z)
    : nat * Z :=
  let finish :=
    let value := if isNegative then wrap T (value * -1) else value in
    (if digit =? -1 then 0%nat else position, value) in
  match buf with
  | [] => finish
  | c :: buf' =>
    match next_digit base c with
    | None => finish
    | Some digit =>
      if (value <? Z.quot min_value base) || (value >? Z.quot max_value base)
      then (0%nat, value)
      else
        let value := wrap T (value * base) in
        if (if isNegative then value <? min_value + digit
            else value >? max_value - digit)
        then (0%nat, value)
        else
          let value := wrap T (value + digit) in
          strToInt_loop T min_value max_value base isNegative buf'
            (S position) digit value
    end
  end.

(** The base identifier: the base and the number of bytes it takes. *)
Definition parse_base (buf : cstring) : Z * nat :=
  if Ascii.eqb (peek buf) "0" && Ascii.eqb (peek (tail buf)) "b" then (2, 2%nat)
  else if Ascii.eqb (peek buf) "0" && Ascii.eqb (peek (tail buf)) "o" then (8, 2%nat)
  else if Ascii.eqb (peek buf) "0" && Ascii.eqb (peek (tail buf)) "x" then (16, 2%nat)
  else (10, 0%nat).

(** The sign: [isNegative] and the number of bytes it takes. *)
Definition parse_sign (min_value : Z) (buf : cstring) : bool * nat :=
  if (min_value <? 0) && (Ascii.eqb (peek buf) "+" || Ascii.eqb (peek buf) "-")
  then (Ascii.eqb (peek buf) "-", 1%nat)
  else (false, 0%nat).

Definition strToInt (T : IntType) (buf : cstring) (min_value max_value : Z)
    : nat * Z :=
  let '(isNegative, position) := parse_sign min_value buf in
  let '(base, skip) := parse_base (drop position buf) in
  let position := (position + skip)%nat in
  strToInt_loop T min_value max_value base isNegative
    (drop position buf) position (-1) 0.

(** The two instantiations used by [processCommand]. *)
Definition strToInt_i64 (buf : cstring) : nat * Z :=
  strToInt Int64 buf INT64_MIN INT64_MAX.
Definition strToInt_u64 (buf : cstring) : nat * Z :=
  strToInt UInt64 buf 0 UINT64_MAX.

(** ** The parser class

    The five template parameters are the variables of the section, like
    [strtod] and the type of doubles.  [World] is whatever a callback can
    affect besides its two arguments. *)

Section CommandParser.

Variable MAX_COMMANDS : nat.
Variable MAX_COMMAND_ARGS : nat.
Variable MAX_COMMAND_NAME_LENGTH : nat.
Variable MAX_COMMAND_ARG_SIZE : nat.
Variable MAX_RESPONSE_SIZE : nat.

Variable double : Type.
(** [strtod(command, &after)]: the value and [after - command]. *)
Variable strtod : cstring -> double * nat.

Variable World : Type.

(** [union Argument].  A store through one member replaces the cell.  A
    string cell holds the bytes stored in front of the terminator (after
    a failed [parseString]: the bytes stored before the failure). *)
Inductive Argument :=
  | asDouble (d : double)
  | asUInt64 (n : Z)
  | asInt64 (n : Z)
  | asString (s : cstring).

(** The type of a callback: it receives the argument array and the
    response buffer, and may change both. *)
Definition Callback : Type :=
  list Argument -> cstring -> World -> list Argument * cstring * World.

(** [struct Command]; [callback = None] is the null pointer. *)
Record Command := mkCommand {
  name : cstring;
  argTypes : cstring;
  callback : option Callback
}.

(** The private members of the class.  The two arrays are lists of
    MAX_COMMAND_ARGS and MAX_COMMANDS cells; the code writes
    [commandDefinitions[numCommands]] only when [numCommands] is below
    the capacity and [commandArgs[i]] only for [i] below the arity of a
    stored command, so no store of the code is out of range in a state
    that the public methods can produce. *)
Record State := mkState {
  commandArgs : list Argument;
  commandDefinitions : list Command;
  numCommands : nat
}.

(** *** parseString *)

(** A [char] store of an [int] result. *)
Definition to_char (z : Z) : ascii := ascii_of_N (Z.to_N (z mod 256)).

(** One round of the [for (j ...)] loop of the hex escape: the new
    [output[i]], or [None] for [return 0]. *)
Definition hex_step (o c : ascii) : option ascii :=
  if (code "0" <=? code c) && (code c <=? code "9")
  then Some (to_char (code o * 16 + (code c - code "0")))
  else if (code "a" <=? code c) && (code c <=? code "f")
  then Some (to_char (code o * 16 + (code c - code "a") + 10))
  else if (code "A" <=? code c) && (code c <=? code "F")
  then Some (to_char (code o * 16 + (code c - code "A") + 10))
  else None.

(** How the [for] loop of [parseString] is left: by [return 0] (with the
    bytes of [output] written so far), or at its end or [break]. *)
Inductive LoopExit :=
  | Return0 (output : cstring)
  | LoopEnd (buf : cstring) (readCount : nat) (output : cstring).

(** The [for] loop of [parseString]: [n] is [MAX_COMMAND_ARG_SIZE - i],
    [buf] the cursor [buf + readCount], [output] the bytes
    [output[0..i-1]]. *)
Fixpoint parseString_loop (isQuoted : bool) (n : nat) (buf : cstring)
    (readCount : nat) (output : cstring) : LoopExit :=
  match n with
  | O => LoopEnd buf readCount output
  | S n' =>
    if Ascii.eqb (peek buf) NUL then LoopEnd buf readCount output
    else if (if isQuoted then Ascii.eqb (peek buf) QUOTE
             else Ascii.eqb (peek buf) SPACE)
    then LoopEnd buf readCount output
    else if Ascii.eqb (peek buf) BACKSLASH then
      let buf := tail buf in
      let readCount := S readCount in
      let c := peek buf in
      if Ascii.eqb c "n" then
        parseString_loop isQuoted n' (tail buf) (S readCount) (output ++ [LF])
      else if Ascii.eqb c "r" then
        parseString_loop isQuoted n' (tail buf) (S readCount) (output ++ [CR])
      else if Ascii.eqb c "t" then
        parseString_loop isQuoted n' (tail buf) (S readCount) (output ++ [TAB])
      else if Ascii.eqb c QUOTE then
        parseString_loop isQuoted n' (tail buf) (S readCount) (output ++ [QUOTE])
      else if Ascii.eqb c BACKSLASH then
        parseString_loop isQuoted n' (tail buf) (S readCount)
          (output ++ [BACKSLASH])
      else if Ascii.eqb c "x" then
        let buf := tail buf in
        let readCount := S readCount in
        match hex_step NUL (peek buf) with
        | None => Return0 (output ++ [NUL])
        | Some o =>
          let buf := tail buf in
          let readCount := S readCount in
          match hex_step o (peek buf) with
          | None => Return0 (output ++ [o])
          | Some o =>
            parseString_loop isQuoted n' (tail buf) (S readCount)
              (output ++ [o])
          end
        end
      else Return0 output
    else
      parseString_loop isQuoted n' (tail buf) (S readCount)
        (output ++ [peek buf])
  end.

(** [parseString(buf, output)]: the returned count and the bytes stored
    in [output] before the terminator (before the point of failure when
    the count is 0 by [return 0]). *)
Definition parseString (buf : cstring) : nat * cstring :=
  let isQuoted := Ascii.eqb (peek buf) QUOTE in
  let readCount := if isQuoted then 1%nat else 0%nat in
  match parseString_loop isQuoted MAX_COMMAND_ARG_SIZE (drop readCount buf)
          readCount [] with
  | Return0 output => (0%nat, output)
  | LoopEnd buf readCount output =>
    if isQuoted then
      if negb (Ascii.eqb (peek buf) QUOTE) then (0%nat, output)
      else (S readCount, output)
    else (readCount, output)
  end.

(** *** registerCommand *)

(** The [for]/[switch] that validates [argTypes]: [false] is [return false]. *)
Fixpoint argTypes_ok (argTypes : cstring) : bool :=
  match argTypes with
  | [] => true
  | c :: rest =>
    if Ascii.eqb c NUL then true
    else if Ascii.eqb c "d" || Ascii.eqb c "u" || Ascii.eqb c "i"
            || Ascii.eqb c "s"
    then argTypes_ok rest
    else false
  end.

Definition registerCommand (st : State) (name argTypes : cstring)
    (callback : option Callback) : bool * State :=
  if Nat.eqb (numCommands st) MAX_COMMANDS then (false, st)
  else if (MAX_COMMAND_NAME_LENGTH <? strlen name)%nat then (false, st)
  else if (MAX_COMMAND_ARGS <? strlen argTypes)%nat then (false, st)
  else if (match callback with None => true | Some _ => false end)
  then (false, st)
  else if negb (argTypes_ok argTypes) then (false, st)
  else
    let def :=
      {| name := strlcpy name (MAX_COMMAND_NAME_LENGTH + 1);
         argTypes := strlcpy argTypes (MAX_COMMAND_ARGS + 1);
         callback := callback |} in
    (true,
     {| commandArgs := commandArgs st;
        commandDefinitions := <[numCommands st := def]> (commandDefinitions st);
        numCommands := S (numCommands st) |}).

(** *** processCommand *)

(** [%d] of [snprintf] for the small counts that the code prints. *)
Definition fmt_d (n : nat) : cstring :=
  lit (NilZero.string_of_uint (Nat.to_uint n)).

(** [snprintf(response, size, ...)] where [msg] is the formatted text:
    at most [size - 1] bytes and a terminator; nothing when [size] is 0. *)
Definition snprintf (response : cstring) (size : nat) (msg : cstring)
    : cstring :=
  match size with
  | O => response
  | S n => take n msg
  end.

(** The loop that retrieves the command name: [n] is
    [MAX_COMMAND_NAME_LENGTH - i]; the result is [name] and the cursor. *)
Fixpoint read_name (n : nat) (command : cstring) : cstring * cstring :=
  match n, command with
  | S n', c :: command' =>
    if Ascii.eqb c SPACE || Ascii.eqb c NUL then ([], command)
    else let '(name, rest) := read_name n' command' in (c :: name, rest)
  | _, _ => ([], command)
  end.

(** The lookup loop, over the first [numCommands] definitions. *)
Fixpoint lookup_command (defs : list Command) (name' : cstring)
    : option Command :=
  match defs with
  | [] => None
  | def :: defs' =>
    if strcmp_eq (name def) name' then Some def
    else lookup_command defs' name'
  end.

(** The loop that skips spaces: it advances the cursor while it points
    at a space. *)
Fixpoint skip_spaces (command : cstring) : cstring :=
  match command with
  | c :: command' =>
    if Ascii.eqb c SPACE then skip_spaces command' else command
  | [] => []
  end.

(** How the argument loop is left: by [return false] after [snprintf]
    of [msg], or at its end with the cursor. *)
Inductive ArgsExit :=
  | ParseError (msg : cstring)
  | ParseDone (command : cstring).

(** The [for] loop over [argTypes]: the list is the cursor [argTypes + i].
    The second result is [commandArgs] as the loop leaves it. *)
Fixpoint parse_args (argTypes : cstring) (i : nat) (command : cstring)
    (commandArgs : list Argument) : ArgsExit * list Argument :=
  match argTypes with
  | [] => (ParseDone command, commandArgs)
  | t :: argTypes' =>
    if Ascii.eqb t NUL then (ParseDone command, commandArgs)
    else if negb (Ascii.eqb (peek command) SPACE) then
      (ParseError (lit "parse error: missing whitespace before arg "
                   ++ fmt_d (i + 1)), commandArgs)
    else
      let command := skip_spaces (tail command) in
      if Ascii.eqb t "d" then
        let '(d, after) := strtod command in
        let commandArgs := <[i := asDouble d]> commandArgs in
        if Nat.eqb after 0
           || (negb (Ascii.eqb (peek (drop after command)) SPACE)
               && negb (Ascii.eqb (peek (drop after command)) NUL))
        then (ParseError (lit "parse error: invalid double for arg "
                          ++ fmt_d (i + 1)), commandArgs)
        else parse_args argTypes' (S i) (drop after command) commandArgs
      else if Ascii.eqb t "u" then
        let '(bytesRead, v) := strToInt UInt64 command 0 UINT64_MAX in
        let commandArgs := <[i := asUInt64 v]> commandArgs in
        if Nat.eqb bytesRead 0
           || (negb (Ascii.eqb (peek (drop bytesRead command)) SPACE)
               && negb (Ascii.eqb (peek (drop bytesRead command)) NUL))
        then (ParseError (lit "parse error: invalid uint64_t for arg "
                          ++ fmt_d (i + 1)), commandArgs)
        else parse_args argTypes' (S i) (drop bytesRead command) commandArgs
      else if Ascii.eqb t "i" then
        let '(bytesRead, v) := strToInt Int64 command INT64_MIN INT64_MAX in
        let commandArgs := <[i := asInt64 v]> commandArgs in
        if Nat.eqb bytesRead 0
           || (negb (Ascii.eqb (peek (drop bytesRead command)) SPACE)
               && negb (Ascii.eqb (peek (drop bytesRead command)) NUL))
        then (ParseError (lit "parse error: invalid int64_t for arg "
                          ++ fmt_d (i + 1)), commandArgs)
        else parse_args argTypes' (S i) (drop bytesRead command) commandArgs
      else if Ascii.eqb t "s" then
        let '(readCount, output) := parseString command in
        let commandArgs := <[i := asString output]> commandArgs in
        if Nat.eqb readCount 0
        then (ParseError (lit "parse error: invalid string for arg "
                          ++ fmt_d (i + 1)), commandArgs)
        else parse_args argTypes' (S i) (drop readCount command) commandArgs
      else
        (ParseError (lit "parse error: invalid argtype " ++ [t]
                     ++ lit " for arg " ++ fmt_d (i + 1)), commandArgs)
  end.

(** [processCommand(command, response)] in the world [w]: the returned
    flag, the state, the response buffer and the world afterwards.
    A null callback is never stored ([registerCommand] refuses it) and
    calling one is undefined in C; here the call does nothing. *)
Definition processCommand (st : State) (command response : cstring)
    (w : World) : bool * State * cstring * World :=
  let '(name', command) := read_name MAX_COMMAND_NAME_LENGTH command in
  match lookup_command (take (numCommands st) (commandDefinitions st)) name' with
  | None =>
    (false, st,
     snprintf response MAX_RESPONSE_SIZE
       (lit "parse error: unknown command name " ++ name'), w)
  | Some def =>
    match parse_args (argTypes def) 0 command (commandArgs st) with
    | (ParseError msg, args) =>
      (false,
       {| commandArgs := args;
          commandDefinitions := commandDefinitions st;
          numCommands := numCommands st |},
       snprintf response MAX_RESPONSE_SIZE msg, w)
    | (ParseDone command, args) =>
      let command := skip_spaces command in
      if negb (Ascii.eqb (peek command) NUL) then
        (false,
         {| commandArgs := args;
            commandDefinitions := commandDefinitions st;
            numCommands := numCommands st |},
         snprintf response MAX_RESPONSE_SIZE
           (lit "parse error: too many args (expected "
            ++ fmt_d (strlen (argTypes def)) ++ lit ")"), w)
      else
        match callback def with
        | None =>
          (true,
           {| commandArgs := args;
              commandDefinitions := commandDefinitions st;
              numCommands := numCommands st |}, [], w)
        | Some f =>
          let '(args, response, w) := f args [] w in
          (true,
           {| commandArgs := args;
              commandDefinitions := commandDefinitions st;
              numCommands := numCommands st |}, response, w)
        end
    end
  end.

(** The state of a freshly constructed parser: [numCommands = 0]; the
    arrays hold [MAX_COMMAND_ARGS] and [MAX_COMMANDS] cells whose content
    is not initialised (here: empty cells). *)
Definition init : State :=
  {| commandArgs := replicate MAX_COMMAND_ARGS (asString []);
     commandDefinitions :=
       replicate MAX_COMMANDS
         {| name := []; argTypes := []; callback := None |};
     numCommands := 0 |}.

End CommandParser.

Arguments asDouble {double} d.
Arguments asUInt64 {double} n.
Arguments asInt64 {double} n.
Arguments asString {double} s.
Arguments name {double World} _.
Arguments argTypes {double World} _.
Arguments callback {double World} _.
Arguments mkCommand {double World} _ _ _.
Arguments commandArgs {double World} _.
Arguments commandDefinitions {double World} _.
Arguments numCommands {double World} _.
Arguments mkState {double World} _ _ _.
Arguments registerCommand MAX_COMMANDS MAX_COMMAND_ARGS MAX_COMMAND_NAME_LENGTH
  {double World} st name argTypes callback.
Arguments parse_args MAX_COMMAND_ARG_SIZE {double} strtod argTypes i command
  commandArgs.
Arguments lookup_command {double World} defs name'.
Arguments processCommand MAX_COMMAND_NAME_LENGTH MAX_COMMAND_ARG_SIZE
  MAX_RESPONSE_SIZE {double} strtod {World} st command response w.
Arguments init MAX_COMMANDS MAX_COMMAND_ARGS {double World}.

(** ** The earlier version of the header

    The file also holds the previous version of the class.  It differs in
    [parseString], which accepts quoted strings only and decodes a hex
    escape with [strtol], and in the integer arguments, which it reads with
    [strtoull] and [strtoll].  Its [parseString] is embedded here;
    [strtol] is libc code and a parameter. *)

Module Legacy.
Section Parser.

Variable MAX_COMMAND_ARG_SIZE : nat.
(** [strtol(s, &after, base)]: the value and [after - s]. *)
Variable strtol : cstring -> Z -> Z * nat.

(** The [for] loop: [None] is [return false]; otherwise the cursor
    [buf + pos], [pos] and the bytes [output[0..i-1]] at its end. *)
Fixpoint parseString_loop (n : nat) (buf : cstring) (pos : nat)
    (output : cstring) : option (cstring * nat * cstring) :=
  match n with
  | O => Some (buf, pos, output)
  | S n' =>
    if Ascii.eqb (peek buf) QUOTE || Ascii.eqb (peek buf) NUL
    then Some (buf, pos, output)
    else if Ascii.eqb (peek buf) BACKSLASH then
      let buf := tail buf in
      let pos := S pos in
      let c := peek buf in
      if Ascii.eqb c "n" then
        parseString_loop n' (tail buf) (S pos) (output ++ [LF])
      else if Ascii.eqb c "r" then
        parseString_loop n' (tail buf) (S pos) (output ++ [CR])
      else if Ascii.eqb c "t" then
        parseString_loop n' (tail buf) (S pos) (output ++ [TAB])
      else if Ascii.eqb c QUOTE then
        parseString_loop n' (tail buf) (S pos) (output ++ [QUOTE])
      else if Ascii.eqb c BACKSLASH then
        parseString_loop n' (tail buf) (S pos) (output ++ [BACKSLASH])
      else if Ascii.eqb c "x" then
        let buf := tail buf in
        let pos := S pos in
        let hexCode := c_str [peek buf; peek (tail buf)] in
        let '(v, read) := strtol hexCode 16 in
        if Nat.eqb read 0 || negb (Ascii.eqb (peek (drop read hexCode)) NUL)
        then None
        else
          parseString_loop n' (drop read buf) (pos + read)
            (output ++ [to_char v])
      else None
    else
      parseString_loop n' (tail buf) (S pos) (output ++ [peek buf])
  end.

(** [parseString(buf, output, &readCount)]: [None] is [return false];
    otherwise [*readCount] and the string stored in [output].  What a
    failed call leaves in [output] is not kept. *)
Definition parseString (buf : cstring) : option (nat * cstring) :=
  if negb (Ascii.eqb (peek buf) QUOTE) then None
  else
    match parseString_loop MAX_COMMAND_ARG_SIZE (tail buf) 1 [] with
    | None => None
    | Some (buf, pos, output) =>
      if negb (Ascii.eqb (peek buf) QUOTE) then None
      else Some (S pos, output)
    end.

End Parser.
End Legacy.

(** ** Vocabulary of the statements *)

(** The value of a hexadecimal digit. *)
Definition hex_digit_value (c : ascii) : option Z :=
  match list_find (eq c) (lit "0123456789abcdef") with
  | Some (i, _) => Some (Z.of_nat i)
  | None =>
    match list_find (eq c) (lit "0123456789ABCDEF") with
    | Some (i, _) => Some (Z.of_nat i)
    | None => None
    end
  end.

(** The pieces of the body of a quoted string: a plain byte or one of
    the escape sequences. *)
Inductive Piece :=
  | Plain (c : ascii)
  | EscN | EscR | EscT | EscQuote | EscBackslash
  | EscHex (h1 h2 : ascii).

(** The text of a piece in the command line. *)
Definition encode (p : Piece) : cstring :=
  match p with
  | Plain c => [c]
  | EscN => [BACKSLASH; "n"]
  | EscR => [BACKSLASH; "r"]
  | EscT => [BACKSLASH; "t"]
  | EscQuote => [BACKSLASH; QUOTE]
  | EscBackslash => [BACKSLASH; BACKSLASH]
  | EscHex h1 h2 => [BACKSLASH; "x"; h1; h2]
  end.

(** The byte a piece stands for. *)
Definition decode (p : Piece) : ascii :=
  match p with
  | Plain c => c
  | EscN => LF
  | EscR => CR
  | EscT => TAB
  | EscQuote => QUOTE
  | EscBackslash => BACKSLASH
  | EscHex h1 h2 =>
    match hex_digit_value h1, hex_digit_value h2 with
    | Some v1, Some v2 => ascii_of_N (Z.to_N (16 * v1 + v2))
    | _, _ => NUL
    end
  end.

(** A plain byte of a quoted string is any byte but the terminator, the
    quote and the backslash; a hex escape has two hex digits. *)
Definition quoted_piece (p : Piece) : Prop :=
  match p with
  | Plain c => c <> NUL /\ c <> QUOTE /\ c <> BACKSLASH
  | EscHex h1 h2 =>
    is_Some (hex_digit_value h1) /\ is_Some (hex_digit_value h2)
  | _ => True
  end.

Definition encode_all (ps : list Piece) : cstring := flat_map encode ps.

(** The characters that may follow a backslash. *)
Definition escape_char (c : ascii) : Prop :=
  c = "n" \/ c = "r" \/ c = "t" \/ c = QUOTE \/ c = BACKSLASH \/ c = "x".

(** The argument type characters. *)
Definition arg_type (c : ascii) : Prop :=
  c = "d"%char \/ c = "u"%char \/ c = "i"%char \/ c = "s"%char.

Section Registry.

Variable MAX_COMMANDS : nat.
Variable MAX_COMMAND_ARGS : nat.
Variable MAX_COMMAND_NAME_LENGTH : nat.
Variable MAX_COMMAND_ARG_SIZE : nat.
Variable MAX_RESPONSE_SIZE : nat.
Variable double : Type.
Variable strtod : cstring -> double * nat.
Variable World : Type.

(** The registry: the definitions stored so far, in registration order. *)
Definition stored (st : State double World) : list (Command double World) :=
  take (numCommands st) (commandDefinitions st).

(** A well-formed definition: the two strings are terminated within
    their arrays, the type characters are known, the handler is set. *)
Definition command_ok (def : Command double World) : Prop :=
  (length (name def) <= MAX_COMMAND_NAME_LENGTH)%nat
  /\ (NUL ∉ name def)
  /\ (length (argTypes def) <= MAX_COMMAND_ARGS)%nat
  /\ Forall arg_type (argTypes def)
  /\ callback def <> None.

Definition registry_ok (st : State double World) : Prop :=
  (numCommands st <= MAX_COMMANDS)%nat
  /\ length (commandDefinitions st) = MAX_COMMANDS
  /\ Forall command_ok (stored st).

(** The states a parser object can be in: after its construction and
    any sequence of calls of its two public methods. *)
Inductive reachable : State double World -> Prop :=
  | reachable_init :
      reachable (init MAX_COMMANDS MAX_COMMAND_ARGS)
  | reachable_registerCommand st name argTypes callback :
      reachable st ->
      reachable
        (snd (registerCommand MAX_COMMANDS MAX_COMMAND_ARGS
                MAX_COMMAND_NAME_LENGTH st name argTypes callback))
  | reachable_processCommand st command response w :
      reachable st ->
      reachable
        (snd (fst (fst
           (processCommand MAX_COMMAND_NAME_LENGTH MAX_COMMAND_ARG_SIZE
              MAX_RESPONSE_SIZE strtod st command response w)))).

End Registry.

Arguments stored {double World} st.
Arguments command_ok MAX_COMMAND_ARGS MAX_COMMAND_NAME_LENGTH {double World} def.
Arguments registry_ok MAX_COMMANDS MAX_COMMAND_ARGS MAX_COMMAND_NAME_LENGTH
  {double World} st.
Arguments reachable MAX_COMMANDS MAX_COMMAND_ARGS MAX_COMMAND_NAME_LENGTH
  MAX_COMMAND_ARG_SIZE MAX_RESPONSE_SIZE {double} strtod {World} _.

(** The command-name token of a line: the bytes before the first space
    or the terminator. *)
Fixpoint name_token (command : cstring) : cstring :=
  match command with
  | [] => []
  | c :: command' =>
    if Ascii.eqb c SPACE || Ascii.eqb c NUL then []
    else c :: name_token command'
  end.

(** ** An instance

    [CommandParser<>] with the default sizes, a libc whose [strtod]
    reads nothing, and handlers that write no response and record the
    argument array they were given. *)

Module Demo.

Definition MAX_COMMANDS : nat := 16.
Definition MAX_COMMAND_ARGS : nat := 4.
Definition MAX_COMMAND_NAME_LENGTH : nat := 10.
Definition MAX_COMMAND_ARG_SIZE : nat := 32.
Definition MAX_RESPONSE_SIZE : nat := 64.

Definition strtod (buf : cstring) : unit * nat := (tt, 0%nat).

(** [strtol] in base 16 on a run of hex digits. *)
Fixpoint strtol_digits (s : cstring) (acc : Z) (read : nat) : Z * nat :=
  match s with
  | c :: s' =>
    match hex_digit_value c with
    | Some v => strtol_digits s' (16 * acc + v) (S read)
    | None => (acc, read)
    end
  | [] => (acc, read)
  end.

Definition strtol (s : cstring) (base : Z) : Z * nat := strtol_digits s 0 0.

(** [strtol(s, &after, 16)] as the C standard describes it: white space
    is skipped, then a sign is read, then [0x] when a hex digit follows
    it, then the hex digits; without a digit nothing is read.  The
    result is the value and [after - s].  (The range check of [long] is
    left out: the earlier [parseString] calls it on two bytes.) *)
Definition isspace (c : ascii) : bool :=
  existsb (Ascii.eqb c) [SPACE; TAB; LF; "011"%char; "012"%char; CR].

Fixpoint strtol_space (s : cstring) (read : nat) : cstring * nat :=
  match s with
  | c :: s' => if isspace c then strtol_space s' (S read) else (s, read)
  | [] => (s, read)
  end.

Definition strtol_sign (s : cstring) : bool * cstring * nat :=
  match s with
  | c :: s' =>
    if Ascii.eqb c "-" then (true, s', 1%nat)
    else if Ascii.eqb c "+" then (false, s', 1%nat)
    else (false, s, 0%nat)
  | [] => (false, s, 0%nat)
  end.

Definition strtol_prefix (s : cstring) : cstring * nat :=
  match s with
  | z :: x :: d :: s' =>
    match hex_digit_value d with
    | Some _ =>
      if Ascii.eqb z "0" && (Ascii.eqb x "x" || Ascii.eqb x "X")
      then (d :: s', 2%nat) else (s, 0%nat)
    | None => (s, 0%nat)
    end
  | _ => (s, 0%nat)
  end.

Definition strtol_c (s : cstring) (base : Z) : Z * nat :=
  let '(s, n1) := strtol_space s 0 in
  let '(neg, s, n2) := strtol_sign s in
  let '(s, n3) := strtol_prefix s in
  let '(v, n) := strtol_digits s 0 0 in
  if Nat.eqb n 0 then (0, 0%nat)
  else (if neg then - v else v, (n1 + n2 + n3 + n)%nat).

Definition World : Type := list (list (Argument unit)).

Definition handler : Callback unit World :=
  fun args response w => (args, response, args :: w).

Definition registerCommand :=
  registerCommand MAX_COMMANDS MAX_COMMAND_ARGS MAX_COMMAND_NAME_LENGTH
    (double := unit) (World := World).

Definition processCommand :=
  processCommand MAX_COMMAND_NAME_LENGTH MAX_COMMAND_ARG_SIZE
    MAX_RESPONSE_SIZE strtod (World := World).

Definition parser0 : State unit World := init MAX_COMMANDS MAX_COMMAND_ARGS.

(** After [registerCommand("move", "ii", handler)]. *)
Definition parser1 : State unit World :=
  snd (registerCommand parser0 (lit "move") (lit "ii") (Some handler)).

(** After a further [registerCommand("abcdefghij", "", handler)]. *)
Definition parser2 : State unit World :=
  snd (registerCommand parser1 (lit "abcdefghij") (lit "") (Some handler)).

(** After a further [registerCommand("say", "s", handler)]. *)
Definition parser3 : State unit World :=
  snd (registerCommand parser2 (lit "say") (lit "s") (Some handler)).

End Demo.

(** A separator space or the line terminator under a cursor. *)
Definition separator (c : ascii) : Prop := c = SPACE \/ c = NUL.

(** The number that the leading digits of [buf] in the base continue
    from [acc], and the value of a numeral with its base identifier:
    the mathematical values, without any bound. *)
Fixpoint digits_value (base : Z) (buf : cstring) (acc : Z) : Z :=
  match buf with
  | [] => acc
  | c :: buf' =>
    match next_digit base c with
    | Some d => digits_value base buf' (acc * base + d)
    | None => acc
    end
  end.

Definition numeral_value (buf : cstring) : Z :=
  let '(base, skip) := parse_base buf in
  digits_value base (drop skip buf) 0.

(** The canonical decimal text of an integer: its digits without
    leading zeros, after a minus sign when it is negative. *)
Definition decimal (v : Z) : cstring :=
  lit (NilZero.string_of_int (Z.to_int v)).

(** The number that the digits of [d] continue from [acc], read from
    the left, and the last of these digits. *)
Fixpoint uint_value (d : Decimal.uint) (acc : Z) : Z :=
  match d with
  | Decimal.Nil => acc
  | Decimal.D0 d => uint_value d (acc * 10 + 0)
  | Decimal.D1 d => uint_value d (acc * 10 + 1)
  | Decimal.D2 d => uint_value d (acc * 10 + 2)
  | Decimal.D3 d => uint_value d (acc * 10 + 3)
  | Decimal.D4 d => uint_value d (acc * 10 + 4)
  | Decimal.D5 d => uint_value d (acc * 10 + 5)
  | Decimal.D6 d => uint_value d (acc * 10 + 6)
  | Decimal.D7 d => uint_value d (acc * 10 + 7)
  | Decimal.D8 d => uint_value d (acc * 10 + 8)
  | Decimal.D9 d => uint_value d (acc * 10 + 9)
  end.

(** The numeral that is printed for [d]: [Nil] is printed as the digit 0. *)
Definition or_zero (d : Decimal.uint) : Decimal.uint :=
  match d with
  | Decimal.Nil => Decimal.D0 Decimal.Nil
  | _ => d
  end.

Fixpoint last_digit (d : Decimal.uint) (digit : Z) : Z :=
  match d with
  | Decimal.Nil => digit
  | Decimal.D0 d => last_digit d 0
  | Decimal.D1 d => last_digit d 1
  | Decimal.D2 d => last_digit d 2
  | Decimal.D3 d => last_digit d 3
  | Decimal.D4 d => last_digit d 4
  | Decimal.D5 d => last_digit d 5
  | Decimal.D6 d => last_digit d 6
  | Decimal.D7 d => last_digit d 7
  | Decimal.D8 d => last_digit d 8
  | Decimal.D9 d => last_digit d 9
  end.

Section Tokens.

Variable MAX_COMMAND_ARG_SIZE : nat.
Variable double : Type.
Variable strtod : cstring -> double * nat.

(** [tok] is a token valid for the argument type [t], and [a] is its
    value: the parser of the type, given the token alone, reads all of
    it.  For a double, whose parser is libc's, this is asked of the
    token in front of a separator or of the terminator. *)
Definition token_for (t : ascii) (tok : cstring) (a : Argument double)
    : Prop :=
  tok <> []
  /\ ((t = "d"%char
       /\ exists d, a = asDouble d /\ peek tok <> SPACE
          /\ forall rest, separator (peek rest) ->
               strtod (tok ++ rest) = (d, length tok))
      \/ (t = "u"%char
          /\ exists v, a = asUInt64 v /\ strToInt_u64 tok = (length tok, v))
      \/ (t = "i"%char
          /\ exists v, a = asInt64 v /\ strToInt_i64 tok = (length tok, v))
      \/ (t = "s"%char
          /\ exists output,
               a = asString output
               /\ parseString MAX_COMMAND_ARG_SIZE tok
                  = (length tok, output))).

End Tokens.

Arguments token_for MAX_COMMAND_ARG_SIZE {double} strtod t tok a.

(** The text of the arguments of a line: before each token, one space
    and [n] more. *)
Definition arguments_text (items : list (nat * cstring)) : cstring :=
  flat_map (fun item => replicate (S (fst item)) SPACE ++ snd item) items.

(** A command line: the name, the arguments, and [trailing] spaces. *)
Definition command_line (name : cstring) (items : list (nat * cstring))
    (trailing : nat) : cstring :=
  name ++ arguments_text items ++ replicate trailing SPACE.

(** The lower-case form of an upper-case hex letter. *)
Definition hex_lower (c : ascii) : ascii :=
  if (code "A" <=? code c) && (code c <=? code "F")
  then ascii_of_N (Z.to_N (code c + 32))
  else c.

(** A plain byte of a bare word is any byte but the terminator, the
    space and the backslash. *)
Definition word_piece (p : Piece) : Prop :=
  match p with
  | Plain c => c <> NUL /\ c <> SPACE /\ c <> BACKSLASH
  | EscHex h1 h2 =>
    is_Some (hex_digit_value h1) /\ is_Some (hex_digit_value h2)
  | _ => True
  end.

Section Later.

Variable MAX_COMMANDS : nat.
Variable MAX_COMMAND_ARGS : nat.
Variable MAX_COMMAND_NAME_LENGTH : nat.
Variable MAX_COMMAND_ARG_SIZE : nat.
Variable MAX_RESPONSE_SIZE : nat.
Variable double : Type.
Variable strtod : cstring -> double * nat.
Variable World : Type.

(** [later st st']: the parser in state [st] gets into state [st'] by a
    sequence of calls of its two public methods. *)
Inductive later (st : State double World) : State double World -> Prop :=
  | later_now : later st st
  | later_registerCommand st' name argTypes callback :
      later st st' ->
      later st
        (snd (registerCommand MAX_COMMANDS MAX_COMMAND_ARGS
                MAX_COMMAND_NAME_LENGTH st' name argTypes callback))
  | later_processCommand st' command response w :
      later st st' ->
      later st
        (snd (fst (fst
           (processCommand MAX_COMMAND_NAME_LENGTH MAX_COMMAND_ARG_SIZE
              MAX_RESPONSE_SIZE strtod st' command response w)))).

End Later.

Arguments later MAX_COMMANDS MAX_COMMAND_ARGS MAX_COMMAND_NAME_LENGTH
  MAX_COMMAND_ARG_SIZE MAX_RESPONSE_SIZE {double} strtod {World} st _.

(** The value of a hex digit as the three range tests of the decoders
    compute it. *)
Definition hex_by_range (c : ascii) : option Z :=
  if (code "0" <=? code c) && (code c <=? code "9")
  then Some (code c - code "0")
  else if (code "a" <=? code c) && (code c <=? code "f")
  then Some (code c - code "a" + 10)
  else if (code "A" <=? code c) && (code c <=? code "F")
  then Some (code c - code "A" + 10)
  else None.

(** * Properties *)

(** ** Characters *)

Ltac each_ascii c :=
  destruct c as [[] [] [] [] [] [] [] []].

Lemma hex_by_range_spec c : hex_by_range c = hex_digit_value c.
Proof. each_ascii c; vm_compute; reflexivity. Qed.

Lemma hex_digit_value_bound c v :
  hex_digit_value c = Some v -> 0 <= v < 16.
Proof.
  intros H. each_ascii c; vm_compute in H; try discriminate H;
    injection H as <-; lia.
Qed.

Lemma code_to_char z : 0 <= z < 256 -> code (to_char z) = z.
Proof.
  intros Hz. unfold code, to_char.
  rewrite Z.mod_small by lia.
  rewrite N_ascii_embedding.
  - apply Z2N.id; lia.
  - change 256%N with (Z.to_N 256). apply Z2N.inj_lt; lia.
Qed.

Lemma to_char_small z :
  0 <= z < 256 -> to_char z = ascii_of_N (Z.to_N z).
Proof. intros Hz. unfold to_char. now rewrite Z.mod_small by lia. Qed.

Lemma hex_step_spec o c :
  hex_step o c =
  match hex_digit_value c with
  | Some v => Some (to_char (code o * 16 + v))
  | None => None
  end.
Proof.
  rewrite <- hex_by_range_spec. unfold hex_step, hex_by_range.
  repeat match goal with
         | |- context [if ?b then _ else _] => destruct b
         end; try reflexivity; do 2 f_equal; lia.
Qed.

Lemma hex_pair_decodes h1 h2 v1 v2 :
  hex_digit_value h1 = Some v1 -> hex_digit_value h2 = Some v2 ->
  exists o, hex_step NUL h1 = Some o /\
            hex_step o h2 = Some (ascii_of_N (Z.to_N (16 * v1 + v2))).
Proof.
  intros H1 H2.
  pose proof (hex_digit_value_bound _ _ H1).
  pose proof (hex_digit_value_bound _ _ H2).
  exists (to_char v1). rewrite !hex_step_spec, H1, H2. split.
  - reflexivity.
  - rewrite code_to_char by lia. rewrite to_char_small by lia.
    do 3 f_equal. lia.
Qed.

Lemma eqb_false_of_neq (a b : ascii) : a <> b -> Ascii.eqb a b = false.
Proof. apply Ascii.eqb_neq. Qed.

(** ** strToInt *)

Lemma wrap_Int64_id z : INT64_MIN <= z <= INT64_MAX -> wrap Int64 z = z.
Proof.
  unfold INT64_MIN, INT64_MAX, wrap. intros H.
  rewrite Z.mod_small; lia.
Qed.

Lemma wrap_UInt64_id z : 0 <= z <= UINT64_MAX -> wrap UInt64 z = z.
Proof.
  unfold UINT64_MAX, wrap. intros H. rewrite Z.mod_small; lia.
Qed.

(** Negating the magnitude of a negative number, as the last statement
    of [strToInt] does: the magnitude 2^63 has already wrapped to
    -2^63, and negating that wraps to -2^63 again. *)
Lemma wrap_Int64_negate m :
  0 <= m <= 2 ^ 63 -> wrap Int64 (wrap Int64 m * -1) = - m.
Proof.
  intros H. destruct (Z.eq_dec m (2 ^ 63)) as [->|Hm].
  - reflexivity.
  - rewrite (wrap_Int64_id m) by (unfold INT64_MIN, INT64_MAX; lia).
    replace (m * -1) with (- m) by lia.
    apply wrap_Int64_id. unfold INT64_MIN, INT64_MAX. lia.
Qed.

Lemma next_digit_separator base c : separator c -> next_digit base c = None.
Proof.
  intros [->| ->]; unfold next_digit;
    repeat match goal with
           | |- context [Z.leb ?k base] => destruct (Z.leb k base)
           end; reflexivity.
Qed.

(** One round of the loop of [strToInt] that passes both range checks. *)
Lemma strToInt_loop_step T (mn mx base : Z) (neg : bool) c buf pos dig (val k : Z) :
  next_digit base c = Some k ->
  ((val <? Z.quot mn base) || (val >? Z.quot mx base)) = false ->
  (if neg then wrap T (val * base) <? mn + k
   else wrap T (val * base) >? mx - k) = false ->
  strToInt_loop T mn mx base neg (c :: buf) pos dig val =
  strToInt_loop T mn mx base neg buf (S pos) k
    (wrap T (wrap T (val * base) + k)).
Proof. intros Hd H1 H2. simpl. now rewrite Hd, H1, H2. Qed.

(** The loop stops at a separator as it stops at the end of the string. *)
Lemma strToInt_loop_app T mn mx base neg rest buf : forall pos dig val,
  next_digit base (peek rest) = None ->
  strToInt_loop T mn mx base neg (buf ++ rest) pos dig val =
  strToInt_loop T mn mx base neg buf pos dig val.
Proof.
  induction buf as [|c buf IH]; intros pos dig val Hrest.
  - destruct rest as [|c rest]; [reflexivity|].
    simpl in *. now rewrite Hrest.
  - simpl. destruct (next_digit base c); [|reflexivity].
    destruct (_ || _); [reflexivity|].
    destruct (if neg then _ else _); [reflexivity|].
    now apply IH.
Qed.

Lemma peek_app_cons (c : ascii) buf rest : peek ((c :: buf) ++ rest) = c.
Proof. reflexivity. Qed.

Lemma parse_base_app buf rest :
  separator (peek rest) ->
  parse_base (buf ++ rest) = parse_base buf
  /\ drop (snd (parse_base buf)) (buf ++ rest)
     = drop (snd (parse_base buf)) buf ++ rest.
Proof.
  intros Hsep. destruct buf as [|c1 [|c2 buf]].
  - simpl. unfold parse_base.
    destruct Hsep as [-> | ->]; now split.
  - unfold parse_base. simpl.
    destruct (Ascii.eqb c1 "0"); [|now split].
    destruct Hsep as [-> | ->]; now split.
  - unfold parse_base. simpl.
    destruct (Ascii.eqb c1 "0"); [|now split].
    destruct (Ascii.eqb c2 "b"); [now split|].
    destruct (Ascii.eqb c2 "o"); [now split|].
    destruct (Ascii.eqb c2 "x"); now split.
Qed.

(** [strToInt] reads a token followed by a separator as it reads the
    token alone. *)
Lemma strToInt_app T tok rest mn mx :
  separator (peek rest) ->
  strToInt T (tok ++ rest) mn mx = strToInt T tok mn mx.
Proof.
  intros Hsep. unfold strToInt.
  assert (Hsign : parse_sign mn (tok ++ rest) = parse_sign mn tok
                  /\ drop (snd (parse_sign mn tok)) (tok ++ rest)
                     = drop (snd (parse_sign mn tok)) tok ++ rest).
  { destruct tok as [|c tok].
    - unfold parse_sign. simpl.
      destruct Hsep as [-> | ->]; destruct (mn <? 0); now split.
    - unfold parse_sign. rewrite peek_app_cons. simpl peek.
      destruct (_ && _); now split. }
  destruct Hsign as [-> Hdrop].
  destruct (parse_sign mn tok) as [neg position]. simpl in Hdrop.
  rewrite Hdrop.
  destruct (parse_base_app (drop position tok) rest Hsep) as [-> Hdrop'].
  destruct (parse_base (drop position tok)) as [base skip]. simpl in Hdrop'.
  rewrite <- !drop_drop, Hdrop, Hdrop'.
  apply strToInt_loop_app. now apply next_digit_separator.
Qed.

(** C4, as the code has it.  The unsigned parser takes no sign: a token
    that begins with + or with - fails to parse as a uint64_t (zero
    bytes read), and [processCommand] reports an invalid uint64_t for
    that argument. *)
Theorem unsigned_takes_no_sign (buf : cstring) :
  peek buf = "+"%char \/ peek buf = "-"%char ->
  fst (strToInt_u64 buf) = 0%nat
  /\ forall MAX_COMMAND_ARG_SIZE (double : Type)
       (strtod : cstring -> double * nat) argTypes i
       (commandArgs : list (Argument double)),
       fst (parse_args MAX_COMMAND_ARG_SIZE strtod ("u"%char :: argTypes) i
              (SPACE :: buf) commandArgs)
       = ParseError (lit "parse error: invalid uint64_t for arg "
                     ++ fmt_d (i + 1)).
Proof.
  intros Hsign.
  assert (H : strToInt UInt64 buf 0 UINT64_MAX = (0%nat, 0)).
  { destruct buf as [|c buf]; [reflexivity|]. simpl in Hsign.
    destruct Hsign as [-> | ->]; reflexivity. }
  split; [unfold strToInt_u64; now rewrite H|].
  intros MAX_COMMAND_ARG_SIZE double strtod argTypes i commandArgs.
  assert (Hskip : skip_spaces buf = buf).
  { destruct buf as [|c buf]; [reflexivity|]. simpl in Hsign.
    destruct Hsign as [-> | ->]; reflexivity. }
  simpl. rewrite Hskip, H. reflexivity.
Qed.

Lemma strToInt_eq T buf mn mx :
  strToInt T buf mn mx =
  let sign := parse_sign mn buf in
  let base := parse_base (drop (snd sign) buf) in
  strToInt_loop T mn mx (fst base) (fst sign)
    (drop (snd sign + snd base) buf) (snd sign + snd base) (-1) 0.
Proof.
  unfold strToInt. destruct (parse_sign mn buf) as [neg position].
  simpl. now destruct (parse_base _).
Qed.

(** *** Accepted values without a minus sign are exact

    Whatever the loop accepts without a minus sign is the mathematical
    value of the digits it read, within the range of the type: the two
    guards reject the first digit that would leave the range. *)

Lemma next_digit_range base c d : next_digit base c = Some d -> 0 <= d <= 15.
Proof.
  unfold next_digit. intros H.
  repeat match type of H with
         | context [Z.leb ?k base] => destruct (Z.leb k base)
         end;
    each_ascii c; vm_compute in H; try discriminate H;
    injection H as <-; lia.
Qed.

Lemma parse_base_positive buf : 0 < fst (parse_base buf).
Proof.
  unfold parse_base.
  repeat match goal with
         | |- context [if ?b then _ else _] => destruct b
         end; simpl; lia.
Qed.

Lemma strToInt_loop_exact T mn mx base :
  0 < base -> 0 <= mx ->
  (forall z, 0 <= z <= mx -> wrap T z = z) ->
  forall buf pos dig val,
    0 <= val <= mx ->
    fst (strToInt_loop T mn mx base false buf pos dig val) <> 0%nat ->
    snd (strToInt_loop T mn mx base false buf pos dig val)
    = digits_value base buf val
    /\ 0 <= digits_value base buf val <= mx.
Proof.
  intros Hbase Hmx Hwrap.
  induction buf as [|c buf IH]; intros pos dig val Hval; simpl.
  - auto.
  - destruct (next_digit base c) as [d|] eqn:Hd; [|auto].
    pose proof (next_digit_range _ _ _ Hd) as Hdr.
    destruct (Z.ltb_spec val (Z.quot mn base)) as [?|_];
      [simpl; congruence|].
    destruct (Z.gtb_spec val (Z.quot mx base)) as [?|Hq];
      [simpl; congruence|].
    simpl orb. cbv iota.
    assert (Hmul : 0 <= val * base <= mx).
    { split; [nia|].
      rewrite Z.quot_div_nonneg in Hq by lia.
      pose proof (Z.mul_div_le mx base Hbase). nia. }
    rewrite (Hwrap (val * base)) by lia.
    destruct (Z.gtb_spec (val * base) (mx - d)) as [?|Hadd];
      [simpl; congruence|].
    rewrite (Hwrap (val * base + d)) by lia.
    apply IH. lia.
Qed.

(** X1.  The unsigned parser never yields a wrapped value: when it
    accepts a token (a byte count other than 0), the value is the
    mathematical value of the numeral it read, in the base of its
    identifier, and this value is at most 2^64 - 1. *)
Lemma strToInt_u64_exact buf :
  fst (strToInt_u64 buf) <> 0%nat ->
  snd (strToInt_u64 buf) = numeral_value buf
  /\ 0 <= numeral_value buf <= UINT64_MAX.
Proof.
  unfold strToInt_u64, numeral_value. rewrite strToInt_eq.
  change (parse_sign 0 buf) with (false, 0%nat). cbv zeta. simpl fst.
  simpl snd. rewrite drop_0. simpl Nat.add.
  pose proof (parse_base_positive buf) as Hbase.
  destruct (parse_base buf) as [base skip]. simpl in *.
  apply strToInt_loop_exact; auto using wrap_UInt64_id;
    unfold UINT64_MAX; lia.
Qed.

(** X2.  The signed parser never yields a wrapped value for a token
    without a minus sign: when it accepts such a token, the value is the
    mathematical value of the numeral behind the optional plus sign, and
    this value is at most 2^63 - 1. *)
Lemma strToInt_i64_exact buf :
  peek buf <> "-"%char ->
  fst (strToInt_i64 buf) <> 0%nat ->
  let numeral := if Ascii.eqb (peek buf) "+" then tail buf else buf in
  snd (strToInt_i64 buf) = numeral_value numeral
  /\ 0 <= numeral_value numeral <= INT64_MAX.
Proof.
  intros Hminus. unfold strToInt_i64, numeral_value. rewrite strToInt_eq.
  unfold parse_sign. change (INT64_MIN <? 0) with true. simpl andb.
  rewrite (eqb_false_of_neq _ _ Hminus), orb_false_r.
  assert (Hid : forall z, 0 <= z <= INT64_MAX -> wrap Int64 z = z).
  { intros z Hz. apply wrap_Int64_id. unfold INT64_MIN, INT64_MAX in *. lia. }
  destruct (Ascii.eqb (peek buf) "+"); cbv zeta; simpl fst; simpl snd.
  - replace (drop 1 buf) with (tail buf) by now destruct buf.
    pose proof (parse_base_positive (tail buf)) as Hbase.
    destruct (parse_base (tail buf)) as [base skip]. simpl fst in *.
    simpl snd. simpl Nat.add.
    replace (drop (S skip) buf) with (drop skip (tail buf))
      by (destruct buf; simpl; rewrite ?drop_nil; reflexivity).
    apply strToInt_loop_exact; auto; unfold INT64_MAX; lia.
  - rewrite drop_0.
    pose proof (parse_base_positive buf) as Hbase.
    destruct (parse_base buf) as [base skip]. simpl fst in *.
    simpl snd. simpl Nat.add.
    apply strToInt_loop_exact; auto; unfold INT64_MAX; lia.
Qed.

(** *** The round trip through the decimal text *)

Lemma uint_value_ge d : forall acc, 0 <= acc -> acc <= uint_value d acc.
Proof.
  induction d; intros acc Hacc; simpl; [lia|..];
    (etransitivity; [|apply IHd]); lia.
Qed.

Lemma uint_value_spec d : forall acc,
  uint_value d acc =
  Z.of_N (Unsigned.of_lu (Decimal.rev d))
  + acc * 10 ^ Z.of_N (Unsigned.usize d).
Proof.
  induction d; intros acc; simpl uint_value;
    [simpl; lia | ..];
    rewrite IHd; unfold Decimal.rev; simpl Decimal.revapp;
    rewrite (Unsigned.of_lu_revapp d (_ Decimal.Nil));
    simpl Unsigned.usize; simpl Unsigned.of_lu;
    rewrite N2Z.inj_succ, Z.pow_succ_r by lia;
    rewrite N2Z.inj_add, N2Z.inj_mul, N2Z.inj_pow;
    fold (Decimal.rev d); simpl Z.of_N; lia.
Qed.

Lemma uint_value_of_uint d : uint_value d 0 = Z.of_uint d.
Proof.
  rewrite uint_value_spec. unfold Z.of_uint.
  rewrite Unsigned.of_uint_alt. lia.
Qed.

Lemma last_digit_range d dig :
  d <> Decimal.Nil -> 0 <= last_digit d dig <= 9.
Proof.
  revert dig. induction d; intros dig Hd; [congruence|..]; simpl;
    (destruct d; [simpl; lia | apply IHd; discriminate ..]).
Qed.

Lemma length_lit_digits d :
  length (lit (NilEmpty.string_of_uint d)) = N.to_nat (Unsigned.usize d).
Proof.
  induction d; simpl; [reflexivity|..]; rewrite IHd; lia.
Qed.

Section Accumulation.

(** The instance of [strToInt] and the largest magnitude [bound] that
    its loop is to accumulate: the maximum, or one more for the
    magnitude of a negative number. *)
Variables (T : IntType) (mn mx bound : Z) (neg : bool).

Hypothesis wrap_id : forall z, 0 <= z <= mx -> wrap T z = z.
Hypothesis mn_le : mn <= 0.
Hypothesis mn_neg : neg = true -> mn + 9 <= 0.
Hypothesis mx_ge : 9 <= mx.
Hypothesis bound_le : bound <= mx + 1.
Hypothesis bound_mx : neg = false -> bound <= mx.
Hypothesis bound_mul : forall acc, acc * 10 <= bound -> acc * 10 <= mx.

Lemma strToInt_loop_digit c k d buf pos dig acc :
  next_digit 10 c = Some k -> 0 <= k <= 9 ->
  0 <= acc <= mx -> uint_value d (acc * 10 + k) <= bound ->
  strToInt_loop T mn mx 10 neg (c :: buf) pos dig acc =
  strToInt_loop T mn mx 10 neg buf (S pos) k (wrap T (acc * 10 + k)).
Proof.
  intros Hc Hk Hacc Hb.
  assert (Hle : acc * 10 + k <= bound).
  { etransitivity; [apply (uint_value_ge d)|exact Hb]. lia. }
  assert (Hmul : acc * 10 <= mx) by (apply bound_mul; lia).
  assert (Hquot : acc <= Z.quot mx 10).
  { apply Z.quot_le_lower_bound; lia. }
  assert (Hquot' : Z.quot mn 10 <= 0).
  { apply Z.quot_le_upper_bound; lia. }
  rewrite (strToInt_loop_step T mn mx 10 neg c buf pos dig acc k Hc).
  - now rewrite (wrap_id (acc * 10)) by lia.
  - apply orb_false_iff. split; lia.
  - rewrite (wrap_id (acc * 10)) by lia.
    destruct neg; [specialize (mn_neg eq_refl); lia|].
    specialize (bound_mx eq_refl). lia.
Qed.

Lemma strToInt_loop_decimal d : forall rest pos dig acc,
  0 <= acc <= mx -> uint_value d acc <= bound ->
  strToInt_loop T mn mx 10 neg (lit (NilEmpty.string_of_uint d) ++ rest)
    pos dig acc =
  strToInt_loop T mn mx 10 neg rest
    (pos + length (lit (NilEmpty.string_of_uint d)))
    (last_digit d dig) (wrap T (uint_value d acc)).
Proof.
  induction d; intros rest pos dig acc Hacc Hb;
    [simpl; rewrite Nat.add_0_r, wrap_id by lia; reflexivity | ..];
    simpl in Hb; simpl lit; simpl app;
    (match goal with
     | |- context [strToInt_loop _ _ _ _ _ (?c :: _) _ _ _] =>
       let r := eval vm_compute in (next_digit 10 c) in
       match r with
       | Some ?k =>
         rewrite (strToInt_loop_digit c k d)
           by first [reflexivity | lia | exact Hb]
       end
     end);
    simpl length; rewrite Nat.add_succ_r; simpl uint_value; simpl last_digit;
    (match goal with
     | |- context [wrap T ?z] =>
       destruct (Z_le_gt_dec z mx) as [Hz|Hz];
       [ rewrite (wrap_id z) by lia; apply IHd; [lia|exact Hb]
       | destruct d;
         [ simpl; rewrite Nat.add_0_r; reflexivity
         | exfalso; simpl in Hb;
           match type of Hb with
           | uint_value ?d' ?a <= _ =>
             pose proof (uint_value_ge d' a ltac:(lia)); lia
           end .. ] ]
     end).
Qed.

Lemma strToInt_loop_numeral d pos dig acc :
  0 <= acc <= mx -> uint_value d acc <= bound ->
  strToInt_loop T mn mx 10 neg (lit (NilEmpty.string_of_uint d)) pos dig acc =
  strToInt_loop T mn mx 10 neg []
    (pos + length (lit (NilEmpty.string_of_uint d)))
    (last_digit d dig) (wrap T (uint_value d acc)).
Proof.
  intros Hacc Hb.
  rewrite <- (strToInt_loop_decimal d [] pos dig acc Hacc Hb).
  now rewrite app_nil_r.
Qed.

End Accumulation.

(** The text of a decimal numeral with at least one digit carries no
    sign and no base identifier. *)
Lemma digits_no_prefix d mn :
  d <> Decimal.Nil ->
  parse_sign mn (lit (NilEmpty.string_of_uint d)) = (false, 0%nat)
  /\ parse_base (lit (NilEmpty.string_of_uint d)) = (10, 0%nat).
Proof.
  intros Hd. unfold parse_sign.
  destruct d as [|d|d|d|d|d|d|d|d|d|d]; [congruence|..];
    (split; [simpl; now rewrite andb_false_r|]);
    destruct d; reflexivity.
Qed.

Lemma or_zero_spec d :
  NilZero.string_of_uint d = NilEmpty.string_of_uint (or_zero d)
  /\ or_zero d <> Decimal.Nil
  /\ Z.of_uint (or_zero d) = Z.of_uint d.
Proof. destruct d; repeat split; discriminate. Qed.

(** A non-negative numeral within the range of the type. *)
Lemma strToInt_numeral T mn mx d :
  (T = Int64 /\ mn = INT64_MIN /\ mx = INT64_MAX)
  \/ (T = UInt64 /\ mn = 0 /\ mx = UINT64_MAX) ->
  d <> Decimal.Nil -> Z.of_uint d <= mx ->
  strToInt T (lit (NilEmpty.string_of_uint d)) mn mx
  = (length (lit (NilEmpty.string_of_uint d)), Z.of_uint d).
Proof.
  intros HT Hd Hmx. rewrite strToInt_eq.
  destruct (digits_no_prefix d mn Hd) as [-> Hbase]. simpl snd.
  rewrite drop_0, Hbase. simpl. rewrite drop_0.
  assert (H0 : 0 <= Z.of_uint d).
  { rewrite <- uint_value_of_uint. now apply uint_value_ge. }
  rewrite (strToInt_loop_numeral T mn mx mx false).
  - simpl. rewrite uint_value_of_uint.
    pose proof (last_digit_range d (-1) Hd) as Hl.
    destruct (Z.eqb_spec (last_digit d (-1)) (-1)) as [E|_]; [lia|].
    f_equal.
    destruct HT as [(-> & -> & ->)|(-> & -> & ->)].
    + apply wrap_Int64_id. unfold INT64_MIN, INT64_MAX in *. lia.
    + now apply wrap_UInt64_id.
  - destruct HT as [(-> & -> & ->)|(-> & -> & ->)]; intros z Hz.
    + apply wrap_Int64_id. unfold INT64_MIN, INT64_MAX in *. lia.
    + now apply wrap_UInt64_id.
  - destruct HT as [(_ & -> & _)|(_ & -> & _)]; [unfold INT64_MIN|]; lia.
  - discriminate.
  - destruct HT as [(_ & _ & ->)|(_ & _ & ->)];
      [unfold INT64_MAX|unfold UINT64_MAX]; lia.
  - lia.
  - reflexivity.
  - auto.
  - destruct HT as [(_ & _ & ->)|(_ & _ & ->)];
      [unfold INT64_MAX|unfold UINT64_MAX]; lia.
  - now rewrite uint_value_of_uint.
Qed.

(** A minus sign and a magnitude of at most 2^63. *)
Lemma strToInt_negative d :
  d <> Decimal.Nil -> Z.of_uint d <= 2 ^ 63 ->
  strToInt Int64 ("-"%char :: lit (NilEmpty.string_of_uint d))
    INT64_MIN INT64_MAX
  = (S (length (lit (NilEmpty.string_of_uint d))), - Z.of_uint d).
Proof.
  intros Hd Hmx. rewrite strToInt_eq.
  change (parse_sign INT64_MIN ("-"%char :: lit (NilEmpty.string_of_uint d)))
    with (true, 1%nat).
  simpl snd. simpl fst.
  change (drop 1 ("-"%char :: lit (NilEmpty.string_of_uint d)))
    with (lit (NilEmpty.string_of_uint d)).
  destruct (digits_no_prefix d 0 Hd) as [_ ->]. simpl snd. simpl fst.
  change (drop (1 + 0) ("-"%char :: lit (NilEmpty.string_of_uint d)))
    with (lit (NilEmpty.string_of_uint d)).
  assert (H0 : 0 <= Z.of_uint d).
  { rewrite <- uint_value_of_uint. now apply uint_value_ge. }
  cbv zeta.
  rewrite (strToInt_loop_numeral Int64 INT64_MIN INT64_MAX (2 ^ 63) true).
  - simpl. rewrite uint_value_of_uint.
    pose proof (last_digit_range d (-1) Hd) as Hl.
    destruct (Z.eqb_spec (last_digit d (-1)) (-1)) as [E|_]; [lia|].
    f_equal. apply wrap_Int64_negate. lia.
  - intros z Hz. apply wrap_Int64_id. unfold INT64_MIN, INT64_MAX in *. lia.
  - unfold INT64_MIN. lia.
  - intros _. unfold INT64_MIN. lia.
  - unfold INT64_MAX. lia.
  - unfold INT64_MAX. lia.
  - discriminate.
  - intros acc. unfold INT64_MAX. lia.
  - unfold INT64_MAX. lia.
  - now rewrite uint_value_of_uint.
Qed.

(** C3.  The round trip for integers is exact: for every value of an
    int64_t (the minimum -2^63 included) the signed parser, and for
    every value of a uint64_t the unsigned parser, reads the canonical
    decimal text of the value completely and yields the value. *)
Theorem integer_round_trip (v : Z) :
  (INT64_MIN <= v <= INT64_MAX ->
   strToInt_i64 (decimal v) = (length (decimal v), v))
  /\ (0 <= v <= UINT64_MAX ->
      strToInt_u64 (decimal v) = (length (decimal v), v)).
Proof.
  pose proof (DecimalZ.of_to v) as Hv.
  unfold decimal, strToInt_i64, strToInt_u64.
  destruct v as [|p|p]; simpl Z.to_int in *; simpl in Hv;
    simpl NilZero.string_of_int.
  - split; reflexivity.
  - destruct (or_zero_spec (Pos.to_uint p)) as (-> & Hd & Hz).
    rewrite <- Hz in Hv.
    split; intros Hr; rewrite <- Hv;
      apply strToInt_numeral; auto; lia.
  - destruct (or_zero_spec (Pos.to_uint p)) as (-> & Hd & Hz).
    rewrite <- Hz in Hv.
    split; intros Hr; [|lia].
    simpl lit. simpl length. rewrite <- Hv.
    apply strToInt_negative; [assumption|].
    unfold INT64_MIN in Hr. lia.
Qed.

(** ** parseString *)

Section ParseString.

Variable MAX_COMMAND_ARG_SIZE : nat.

(** One round of the loop on a well-formed piece of a quoted string. *)
Lemma parseString_loop_piece n p rest rc out :
  quoted_piece p ->
  parseString_loop true (S n) (encode p ++ rest) rc out =
  parseString_loop true n rest (rc + length (encode p)) (out ++ [decode p]).
Proof.
  destruct p; simpl; intros Hp.
  - destruct Hp as (H0 & Hq & Hb).
    rewrite (eqb_false_of_neq _ _ H0), (eqb_false_of_neq _ _ Hq),
      (eqb_false_of_neq _ _ Hb).
    now rewrite Nat.add_1_r.
  - now replace (rc + 2)%nat with (S (S rc)) by lia.
  - now replace (rc + 2)%nat with (S (S rc)) by lia.
  - now replace (rc + 2)%nat with (S (S rc)) by lia.
  - now replace (rc + 2)%nat with (S (S rc)) by lia.
  - now replace (rc + 2)%nat with (S (S rc)) by lia.
  - destruct Hp as ([v1 H1] & [v2 H2]).
    destruct (hex_pair_decodes _ _ _ _ H1 H2) as (o & Ho1 & Ho2).
    rewrite Ho1, Ho2, H1, H2.
    now replace (rc + 4)%nat with (S (S (S (S rc)))) by lia.
Qed.

Lemma encode_head p :
  quoted_piece p ->
  exists c b, encode p = c :: b /\ c <> QUOTE /\ c <> NUL.
Proof.
  destruct p; simpl; intros Hp; eexists _, _;
    (split; [reflexivity|]); try (split; discriminate).
  tauto.
Qed.

(** The loop on a run of pieces that fits in the remaining space. *)
Lemma parseString_loop_pieces ps : forall n rest rc out,
  Forall quoted_piece ps -> (length ps <= n)%nat ->
  parseString_loop true n (encode_all ps ++ rest) rc out =
  parseString_loop true (n - length ps) rest
    (rc + length (encode_all ps)) (out ++ map decode ps).
Proof.
  induction ps as [|p ps IH]; intros n rest rc out Hps Hn.
  - simpl. now rewrite Nat.sub_0_r, Nat.add_0_r, app_nil_r.
  - apply Forall_cons in Hps as [Hp Hps].
    destruct n as [|n]; [simpl in Hn; lia|].
    unfold encode_all. simpl flat_map. rewrite <- app_assoc.
    rewrite parseString_loop_piece by assumption.
    fold (encode_all ps). rewrite IH by (simpl in Hn; auto with lia).
    simpl length. rewrite length_app, <- app_assoc. simpl.
    f_equal. lia.
Qed.

(** The loop on a run of pieces that does not fit: it stops at the
    size bound, in front of a byte that is not the closing quote. *)
Lemma parseString_loop_overrun ps : forall n rest rc out,
  Forall quoted_piece ps -> (n < length ps)%nat ->
  exists c b r o,
    parseString_loop true n (encode_all ps ++ rest) rc out
      = LoopEnd (c :: b) r o /\ c <> QUOTE.
Proof.
  induction ps as [|p ps IH]; intros n rest rc out Hps Hn.
  - simpl in Hn. lia.
  - apply Forall_cons in Hps as [Hp Hps].
    unfold encode_all. simpl flat_map. rewrite <- app_assoc.
    destruct n as [|n].
    + destruct (encode_head p Hp) as (c & b & -> & Hq & _).
      simpl. eauto 6.
    + rewrite parseString_loop_piece by assumption.
      apply IH; [assumption | simpl in Hn; lia].
Qed.

Lemma parseString_open_quote body :
  parseString MAX_COMMAND_ARG_SIZE (QUOTE :: body) =
  match parseString_loop true MAX_COMMAND_ARG_SIZE body 1 [] with
  | Return0 output => (0%nat, output)
  | LoopEnd buf readCount output =>
    if negb (Ascii.eqb (peek buf) QUOTE) then (0%nat, output)
    else (S readCount, output)
  end.
Proof. reflexivity. Qed.

(** A quoted string made of well-formed pieces that fit. *)
Lemma parseString_quoted ps rest :
  Forall quoted_piece ps -> (length ps <= MAX_COMMAND_ARG_SIZE)%nat ->
  parseString MAX_COMMAND_ARG_SIZE (QUOTE :: encode_all ps ++ QUOTE :: rest)
  = (2 + length (encode_all ps), map decode ps)%nat.
Proof.
  intros Hps Hn. rewrite parseString_open_quote.
  rewrite parseString_loop_pieces by assumption.
  destruct (MAX_COMMAND_ARG_SIZE - length ps)%nat; reflexivity.
Qed.

(** The loop in front of a backslash that starts no escape sequence. *)
Lemma parseString_loop_bad_escape n c rest rc out :
  ~ escape_char c ->
  match parseString_loop true n (BACKSLASH :: c :: rest) rc out with
  | Return0 _ => True
  | LoopEnd b _ _ => peek b <> QUOTE
  end.
Proof.
  intros Hc. unfold escape_char in Hc.
  destruct n as [|n]; simpl; [discriminate|].
  rewrite !eqb_false_of_neq by tauto. exact I.
Qed.

Lemma parseString_bad_escape ps c rest :
  Forall quoted_piece ps -> ~ escape_char c ->
  fst (parseString MAX_COMMAND_ARG_SIZE
         (QUOTE :: encode_all ps ++ BACKSLASH :: c :: rest)) = 0%nat.
Proof.
  intros Hps Hc. rewrite parseString_open_quote.
  destruct (le_lt_dec (length ps) MAX_COMMAND_ARG_SIZE) as [Hn|Hn].
  - rewrite parseString_loop_pieces by assumption.
    pose proof (parseString_loop_bad_escape
      (MAX_COMMAND_ARG_SIZE - length ps) c rest
      (1 + length (encode_all ps)) ([] ++ map decode ps) Hc) as H.
    destruct parseString_loop; [reflexivity|].
    now rewrite (eqb_false_of_neq _ _ H).
  - destruct (parseString_loop_overrun ps MAX_COMMAND_ARG_SIZE
      (BACKSLASH :: c :: rest) 1%nat [] Hps Hn) as (c' & b & r & o & -> & Hq).
    simpl. now rewrite (eqb_false_of_neq _ _ Hq).
Qed.

(** In this version a hex escape without two hex digits fails too. *)
Lemma parseString_bad_hex ps h1 h2 rest :
  Forall quoted_piece ps ->
  hex_digit_value h1 = None \/ hex_digit_value h2 = None ->
  fst (parseString MAX_COMMAND_ARG_SIZE
         (QUOTE :: encode_all ps ++ BACKSLASH :: "x"%char :: h1 :: h2 :: rest))
  = 0%nat.
Proof.
  intros Hps Hhex. rewrite parseString_open_quote.
  destruct (le_lt_dec (length ps) MAX_COMMAND_ARG_SIZE) as [Hn|Hn].
  - rewrite parseString_loop_pieces by assumption.
    destruct (MAX_COMMAND_ARG_SIZE - length ps)%nat as [|n]; [reflexivity|].
    simpl. rewrite !hex_step_spec.
    destruct (hex_digit_value h1) as [v1|]; [|reflexivity].
    rewrite hex_step_spec.
    destruct (hex_digit_value h2) as [v2|]; [|reflexivity].
    destruct Hhex; discriminate.
  - destruct (parseString_loop_overrun ps MAX_COMMAND_ARG_SIZE
      (BACKSLASH :: "x"%char :: h1 :: h2 :: rest) 1%nat [] Hps Hn)
      as (c' & b & r & o & -> & Hq).
    simpl. now rewrite (eqb_false_of_neq _ _ Hq).
Qed.

Lemma parseString_unterminated ps :
  Forall quoted_piece ps ->
  fst (parseString MAX_COMMAND_ARG_SIZE (QUOTE :: encode_all ps)) = 0%nat.
Proof.
  intros Hps. rewrite parseString_open_quote.
  destruct (le_lt_dec (length ps) MAX_COMMAND_ARG_SIZE) as [Hn|Hn].
  - rewrite <- (app_nil_r (encode_all ps)).
    rewrite parseString_loop_pieces by assumption.
    destruct (MAX_COMMAND_ARG_SIZE - length ps)%nat; reflexivity.
  - rewrite <- (app_nil_r (encode_all ps)).
    destruct (parseString_loop_overrun ps MAX_COMMAND_ARG_SIZE
      [] 1%nat [] Hps Hn) as (c' & b & r & o & -> & Hq).
    simpl. now rewrite (eqb_false_of_neq _ _ Hq).
Qed.

(** The loop reads a string followed by a separator as it reads the
    string alone, when it does not fail and, for a quoted string, does
    not run into the end. *)
Lemma parseString_loop_app q rest :
  separator (peek rest) ->
  forall n buf rc out b r o,
    parseString_loop q n buf rc out = LoopEnd b r o ->
    (q = true -> b <> []) ->
    parseString_loop q n (buf ++ rest) rc out = LoopEnd (b ++ rest) r o.
Proof.
  intros Hsep. induction n as [|n IH]; intros buf rc out b r o H Hb.
  - simpl in *. now injection H as <- <- <-.
  - destruct buf as [|c1 buf].
    { simpl in H. injection H as <- <- <-.
      destruct q; [now contradiction Hb|].
      simpl. destruct Hsep as [-> | ->]; reflexivity. }
    change (peek ((c1 :: buf) ++ rest)) with c1.
    simpl in H |- *.
    destruct (Ascii.eqb c1 NUL); [now injection H as <- <- <-|].
    destruct (if q then Ascii.eqb c1 QUOTE else Ascii.eqb c1 SPACE);
      [now injection H as <- <- <-|].
    destruct (Ascii.eqb c1 BACKSLASH); [|now apply IH].
    destruct buf as [|c2 buf]; [discriminate H|].
    simpl in H |- *.
    destruct (Ascii.eqb c2 "n"); [now apply IH|].
    destruct (Ascii.eqb c2 "r"); [now apply IH|].
    destruct (Ascii.eqb c2 "t"); [now apply IH|].
    destruct (Ascii.eqb c2 QUOTE); [now apply IH|].
    destruct (Ascii.eqb c2 BACKSLASH); [now apply IH|].
    destruct (Ascii.eqb c2 "x"); [|discriminate H].
    destruct buf as [|c3 buf]; [discriminate H|].
    simpl in H |- *.
    destruct (hex_step NUL c3) as [o1|]; [|discriminate H].
    destruct buf as [|c4 buf].
    { simpl peek in H. rewrite hex_step_spec in H. discriminate H. }
    simpl in H |- *.
    destruct (hex_step o1 c4) as [o2|]; [|discriminate H].
    now apply IH.
Qed.

(** [parseString] reads a token followed by a separator as it reads
    the token alone, when it accepts all of the token. *)
Lemma parseString_app tok rest out :
  separator (peek rest) -> tok <> [] ->
  parseString MAX_COMMAND_ARG_SIZE tok = (length tok, out) ->
  parseString MAX_COMMAND_ARG_SIZE (tok ++ rest) = (length tok, out).
Proof.
  intros Hsep Htok H. destruct tok as [|c tok]; [congruence|].
  unfold parseString in *. change (peek ((c :: tok) ++ rest)) with c.
  simpl peek in H.
  destruct (Ascii.eqb c QUOTE).
  - change (drop 1 ((c :: tok) ++ rest)) with (tok ++ rest).
    change (drop 1 (c :: tok)) with tok in H.
    destruct (parseString_loop true _ tok _ _) as [o|b r o] eqn:Hloop;
      [discriminate H|].
    destruct (Ascii.eqb (peek b) QUOTE) eqn:Hq; [|discriminate H].
    assert (Hb : b <> []) by (intros ->; discriminate Hq).
    rewrite (parseString_loop_app true rest Hsep _ _ _ _ _ _ _ Hloop)
      by auto.
    destruct b as [|c' b]; [congruence|]. simpl in *. now rewrite Hq.
  - change (drop 0 ((c :: tok) ++ rest)) with ((c :: tok) ++ rest).
    change (drop 0 (c :: tok)) with (c :: tok) in H.
    destruct (parseString_loop false _ _ _ _) as [o|b r o] eqn:Hloop;
      [discriminate H|].
    rewrite (parseString_loop_app false rest Hsep _ _ _ _ _ _ _ Hloop)
      by discriminate.
    exact H.
Qed.

Lemma parseString_space tok :
  parseString MAX_COMMAND_ARG_SIZE (SPACE :: tok) = (0%nat, []).
Proof. unfold parseString. simpl. now destruct MAX_COMMAND_ARG_SIZE. Qed.

End ParseString.

(** ** parseString of the earlier version *)

Section LegacyParseString.

Variable MAX_COMMAND_ARG_SIZE : nat.
Variable strtol : cstring -> Z -> Z * nat.

(** What the C standard says of [strtol] in base 16 on two hex digits. *)
Hypothesis strtol_hex_pair : forall h1 h2 v1 v2,
  hex_digit_value h1 = Some v1 -> hex_digit_value h2 = Some v2 ->
  strtol [h1; h2] 16 = (16 * v1 + v2, 2%nat).

Lemma hex_digit_not_NUL c v : hex_digit_value c = Some v -> c <> NUL.
Proof. intros H ->. discriminate H. Qed.

Lemma legacy_loop_piece n p rest pos out :
  quoted_piece p ->
  Legacy.parseString_loop strtol (S n) (encode p ++ rest) pos out =
  Legacy.parseString_loop strtol n rest (pos + length (encode p))
    (out ++ [decode p]).
Proof.
  destruct p; simpl; intros Hp.
  - destruct Hp as (H0 & Hq & Hb).
    rewrite (eqb_false_of_neq _ _ H0), (eqb_false_of_neq _ _ Hq),
      (eqb_false_of_neq _ _ Hb).
    simpl. now rewrite Nat.add_1_r.
  - now replace (pos + 2)%nat with (S (S pos)) by lia.
  - now replace (pos + 2)%nat with (S (S pos)) by lia.
  - now replace (pos + 2)%nat with (S (S pos)) by lia.
  - now replace (pos + 2)%nat with (S (S pos)) by lia.
  - now replace (pos + 2)%nat with (S (S pos)) by lia.
  - destruct Hp as ([v1 H1] & [v2 H2]).
    rewrite (eqb_false_of_neq _ _ (hex_digit_not_NUL _ _ H1)),
      (eqb_false_of_neq _ _ (hex_digit_not_NUL _ _ H2)).
    rewrite (strtol_hex_pair _ _ _ _ H1 H2), H1, H2. simpl.
    pose proof (hex_digit_value_bound _ _ H1).
    pose proof (hex_digit_value_bound _ _ H2).
    rewrite to_char_small by lia.
    now replace (pos + 4)%nat with (S (S (pos + 2))) by lia.
Qed.

Lemma legacy_loop_pieces ps : forall n rest pos out,
  Forall quoted_piece ps -> (length ps <= n)%nat ->
  Legacy.parseString_loop strtol n (encode_all ps ++ rest) pos out =
  Legacy.parseString_loop strtol (n - length ps) rest
    (pos + length (encode_all ps)) (out ++ map decode ps).
Proof.
  induction ps as [|p ps IH]; intros n rest pos out Hps Hn.
  - simpl. now rewrite Nat.sub_0_r, Nat.add_0_r, app_nil_r.
  - apply Forall_cons in Hps as [Hp Hps].
    destruct n as [|n]; [simpl in Hn; lia|].
    unfold encode_all. simpl flat_map. rewrite <- app_assoc.
    rewrite legacy_loop_piece by assumption.
    fold (encode_all ps). rewrite IH by (simpl in Hn; auto with lia).
    simpl length. rewrite length_app, <- app_assoc. simpl.
    f_equal. lia.
Qed.

Lemma legacy_loop_overrun ps : forall n rest pos out,
  Forall quoted_piece ps -> (n < length ps)%nat ->
  exists c b r o,
    Legacy.parseString_loop strtol n (encode_all ps ++ rest) pos out
      = Some (c :: b, r, o) /\ c <> QUOTE.
Proof.
  induction ps as [|p ps IH]; intros n rest pos out Hps Hn.
  - simpl in Hn. lia.
  - apply Forall_cons in Hps as [Hp Hps].
    unfold encode_all. simpl flat_map. rewrite <- app_assoc.
    destruct n as [|n].
    + destruct (encode_head p Hp) as (c & b & -> & Hq & _).
      simpl. eauto 6.
    + rewrite legacy_loop_piece by assumption.
      apply IH; [assumption | simpl in Hn; lia].
Qed.

Lemma legacy_open_quote body :
  Legacy.parseString MAX_COMMAND_ARG_SIZE strtol (QUOTE :: body) =
  match Legacy.parseString_loop strtol MAX_COMMAND_ARG_SIZE body 1 [] with
  | None => None
  | Some (buf, pos, output) =>
    if negb (Ascii.eqb (peek buf) QUOTE) then None else Some (S pos, output)
  end.
Proof. reflexivity. Qed.

Lemma legacy_quoted ps rest :
  Forall quoted_piece ps -> (length ps <= MAX_COMMAND_ARG_SIZE)%nat ->
  Legacy.parseString MAX_COMMAND_ARG_SIZE strtol
    (QUOTE :: encode_all ps ++ QUOTE :: rest)
  = Some (2 + length (encode_all ps), map decode ps)%nat.
Proof.
  intros Hps Hn. rewrite legacy_open_quote.
  rewrite legacy_loop_pieces by assumption.
  destruct (MAX_COMMAND_ARG_SIZE - length ps)%nat; reflexivity.
Qed.

Lemma legacy_loop_bad_escape n c rest pos out :
  ~ escape_char c ->
  match Legacy.parseString_loop strtol n (BACKSLASH :: c :: rest) pos out with
  | None => True
  | Some (b, _, _) => peek b <> QUOTE
  end.
Proof.
  intros Hc. unfold escape_char in Hc.
  destruct n as [|n]; simpl; [discriminate|].
  rewrite !eqb_false_of_neq by tauto. exact I.
Qed.

Lemma legacy_bad_escape ps c rest :
  Forall quoted_piece ps -> ~ escape_char c ->
  Legacy.parseString MAX_COMMAND_ARG_SIZE strtol
    (QUOTE :: encode_all ps ++ BACKSLASH :: c :: rest) = None.
Proof.
  intros Hps Hc. rewrite legacy_open_quote.
  destruct (le_lt_dec (length ps) MAX_COMMAND_ARG_SIZE) as [Hn|Hn].
  - rewrite legacy_loop_pieces by assumption.
    pose proof (legacy_loop_bad_escape
      (MAX_COMMAND_ARG_SIZE - length ps) c rest
      (1 + length (encode_all ps)) ([] ++ map decode ps) Hc) as H.
    destruct Legacy.parseString_loop as [[[b r] o]|]; [|reflexivity].
    now rewrite (eqb_false_of_neq _ _ H).
  - destruct (legacy_loop_overrun ps MAX_COMMAND_ARG_SIZE
      (BACKSLASH :: c :: rest) 1%nat [] Hps Hn) as (c' & b & r & o & -> & Hq).
    simpl. now rewrite (eqb_false_of_neq _ _ Hq).
Qed.

Lemma legacy_unterminated ps :
  Forall quoted_piece ps ->
  Legacy.parseString MAX_COMMAND_ARG_SIZE strtol (QUOTE :: encode_all ps)
  = None.
Proof.
  intros Hps. rewrite legacy_open_quote.
  rewrite <- (app_nil_r (encode_all ps)).
  destruct (le_lt_dec (length ps) MAX_COMMAND_ARG_SIZE) as [Hn|Hn].
  - rewrite legacy_loop_pieces by assumption.
    destruct (MAX_COMMAND_ARG_SIZE - length ps)%nat; reflexivity.
  - destruct (legacy_loop_overrun ps MAX_COMMAND_ARG_SIZE
      [] 1%nat [] Hps Hn) as (c' & b & r & o & -> & Hq).
    simpl. now rewrite (eqb_false_of_neq _ _ Hq).
Qed.

End LegacyParseString.

(** ** String arguments: the statements *)

Section StringArguments.

Variable MAX_COMMAND_ARG_SIZE : nat.
Variable strtol : cstring -> Z -> Z * nat.
Variable double : Type.
Variable strtod : cstring -> double * nat.

(** X20.  Well-formed escape sequences decode exactly, in both versions
    of [parseString].  For a body made of plain bytes and the escape
    sequences \n \r \t \quote \backslash \xHH (two hex digits):
    when the decoded bytes fit in the argument size, the string followed
    by its closing quote parses to exactly the decoded bytes, one byte
    per piece, and the byte count covers both quotes; a backslash
    followed by a character other than n, r, t, quote, backslash and x
    makes the parse fail; and a body that the line terminator ends
    before a closing quote makes the parse fail.  For the earlier
    version [strtol] is assumed to read two hex digits as the C
    standard says.  A \x that is not followed by two hex digits is left
    to a theorem of its own. *)
Theorem escape_sequences_decode (ps : list Piece) :
  (forall h1 h2 v1 v2,
     hex_digit_value h1 = Some v1 -> hex_digit_value h2 = Some v2 ->
     strtol [h1; h2] 16 = (16 * v1 + v2, 2%nat)) ->
  Forall quoted_piece ps ->
  ((length ps <= MAX_COMMAND_ARG_SIZE)%nat ->
   forall rest,
     parseString MAX_COMMAND_ARG_SIZE
       (QUOTE :: encode_all ps ++ QUOTE :: rest)
     = (2 + length (encode_all ps), map decode ps)%nat
     /\ Legacy.parseString MAX_COMMAND_ARG_SIZE strtol
          (QUOTE :: encode_all ps ++ QUOTE :: rest)
        = Some (2 + length (encode_all ps), map decode ps)%nat)
  /\ (forall c rest,
        ~ escape_char c ->
        fst (parseString MAX_COMMAND_ARG_SIZE
               (QUOTE :: encode_all ps ++ BACKSLASH :: c :: rest)) = 0%nat
        /\ Legacy.parseString MAX_COMMAND_ARG_SIZE strtol
             (QUOTE :: encode_all ps ++ BACKSLASH :: c :: rest) = None)
  /\ (fst (parseString MAX_COMMAND_ARG_SIZE (QUOTE :: encode_all ps)) = 0%nat
      /\ Legacy.parseString MAX_COMMAND_ARG_SIZE strtol
           (QUOTE :: encode_all ps) = None).
Proof.
  intros Hstrtol Hps. repeat split.
  - now apply parseString_quoted.
  - now apply legacy_quoted.
  - now apply parseString_bad_escape.
  - now apply legacy_bad_escape.
  - now apply parseString_unterminated.
  - now apply legacy_unterminated.
Qed.

(** C10.  The empty string argument is accepted: an opening quote
    directly followed by a closing quote parses, in both versions of
    [parseString], to the empty string with a byte count of exactly 2,
    whatever follows; and the argument loop of [processCommand] stores
    the empty string in the cell of that argument and goes on behind
    the closing quote. *)
Theorem empty_string_argument_accepted (rest : cstring) :
  parseString MAX_COMMAND_ARG_SIZE (QUOTE :: QUOTE :: rest) = (2%nat, [])
  /\ Legacy.parseString MAX_COMMAND_ARG_SIZE strtol (QUOTE :: QUOTE :: rest)
     = Some (2%nat, [])
  /\ forall argTypes i (commandArgs : list (Argument double)),
       parse_args MAX_COMMAND_ARG_SIZE strtod ("s"%char :: argTypes) i
         (SPACE :: QUOTE :: QUOTE :: rest) commandArgs
       = parse_args MAX_COMMAND_ARG_SIZE strtod argTypes (S i) rest
           (<[i := asString []]> commandArgs).
Proof.
  assert (H : parseString MAX_COMMAND_ARG_SIZE (QUOTE :: QUOTE :: rest)
              = (2%nat, [])).
  { rewrite parseString_open_quote.
    destruct MAX_COMMAND_ARG_SIZE; reflexivity. }
  split; [exact H|]. split.
  - rewrite legacy_open_quote. destruct MAX_COMMAND_ARG_SIZE; reflexivity.
  - intros argTypes i commandArgs.
    change (parse_args MAX_COMMAND_ARG_SIZE strtod ("s"%char :: argTypes) i
              (SPACE :: QUOTE :: QUOTE :: rest) commandArgs)
      with (let '(readCount, output) :=
              parseString MAX_COMMAND_ARG_SIZE (QUOTE :: QUOTE :: rest) in
            let commandArgs' := <[i := asString output]> commandArgs in
            if Nat.eqb readCount 0
            then (ParseError (lit "parse error: invalid string for arg "
                              ++ fmt_d (i + 1)), commandArgs')
            else parse_args MAX_COMMAND_ARG_SIZE strtod argTypes (S i)
                   (drop readCount (QUOTE :: QUOTE :: rest)) commandArgs').
    rewrite H. reflexivity.
Qed.

End StringArguments.

(** ** The registry *)

Section RegisterCommand.

Variable MAX_COMMANDS : nat.
Variable MAX_COMMAND_ARGS : nat.
Variable MAX_COMMAND_NAME_LENGTH : nat.
Variable double : Type.
Variable World : Type.

Implicit Types (st : State double World) (def : Command double World).

Lemma c_str_no_NUL s : NUL ∉ c_str s.
Proof.
  induction s as [|c s IH]; simpl.
  - apply not_elem_of_nil.
  - destruct (Ascii.eqb c NUL) eqn:E.
    + apply not_elem_of_nil.
    + apply Ascii.eqb_neq in E. rewrite not_elem_of_cons. auto.
Qed.

Lemma c_str_id s : NUL ∉ s -> c_str s = s.
Proof.
  induction s as [|c s IH]; simpl; [reflexivity|].
  rewrite not_elem_of_cons. intros [Hc Hs].
  rewrite (eqb_false_of_neq c NUL) by congruence.
  now rewrite IH.
Qed.

Lemma c_str_idemp s : c_str (c_str s) = c_str s.
Proof. apply c_str_id, c_str_no_NUL. Qed.

Lemma strlcpy_fits s n :
  (strlen s <= n)%nat -> strlcpy s (n + 1) = c_str s.
Proof.
  intros H. unfold strlcpy, strlen in *.
  replace (n + 1 - 1)%nat with n by lia. now apply take_ge.
Qed.

Lemma argTypes_ok_spec s :
  argTypes_ok s = true <-> Forall arg_type (c_str s).
Proof.
  induction s as [|c s IH]; simpl.
  - split; auto.
  - destruct (Ascii.eqb c NUL) eqn:E0; [split; auto|].
    destruct (Ascii.eqb c "d" || Ascii.eqb c "u" || Ascii.eqb c "i"
              || Ascii.eqb c "s") eqn:E.
    + rewrite IH. rewrite Forall_cons. split; [|tauto].
      intros H. split; [|exact H].
      unfold arg_type. rewrite !orb_true_iff, !Ascii.eqb_eq in E. tauto.
    + split; [discriminate|]. rewrite Forall_cons. intros [Hc _].
      unfold arg_type in Hc.
      rewrite !orb_false_iff, !Ascii.eqb_neq in E. tauto.
Qed.

Lemma stored_append st def :
  (numCommands st < length (commandDefinitions st))%nat ->
  take (S (numCommands st)) (<[numCommands st := def]> (commandDefinitions st))
  = stored st ++ [def].
Proof.
  intros H. unfold stored.
  rewrite (take_S_r _ _ def) by now apply list_lookup_insert_eq.
  now rewrite take_insert_ge by lia.
Qed.

(** C7.  [registerCommand] is all-or-nothing.  If the registry is at
    capacity, or the name is longer than MAX_COMMAND_NAME_LENGTH, or
    argTypes is longer than MAX_COMMAND_ARGS, or the handler is null, or
    some character of argTypes is none of d, u, i, s, it returns false
    and leaves the whole state (the command count and every stored
    definition) as it was; otherwise it returns true and the registry is
    the old one followed by exactly one new definition, made of the
    name, argTypes and the handler. *)
Theorem registerCommand_all_or_nothing st name argTypes callback :
  (numCommands st <= MAX_COMMANDS)%nat ->
  length (commandDefinitions st) = MAX_COMMANDS ->
  let refused :=
    numCommands st = MAX_COMMANDS
    \/ (MAX_COMMAND_NAME_LENGTH < strlen name)%nat
    \/ (MAX_COMMAND_ARGS < strlen argTypes)%nat
    \/ callback = None
    \/ ~ Forall arg_type (c_str argTypes) in
  (refused ->
   registerCommand MAX_COMMANDS MAX_COMMAND_ARGS MAX_COMMAND_NAME_LENGTH
     st name argTypes callback = (false, st))
  /\ (~ refused ->
      exists st',
        registerCommand MAX_COMMANDS MAX_COMMAND_ARGS MAX_COMMAND_NAME_LENGTH
          st name argTypes callback = (true, st')
        /\ stored st' = stored st ++ [mkCommand (c_str name) (c_str argTypes)
                                        callback]
        /\ numCommands st' = S (numCommands st)
        /\ commandArgs st' = commandArgs st).
Proof.
  intros Hle Hlen refused. unfold registerCommand.
  destruct (Nat.eqb_spec (numCommands st) MAX_COMMANDS) as [Hn|Hn].
  { split; [reflexivity|]. intros H. exfalso. apply H. now left. }
  destruct (Nat.ltb_spec MAX_COMMAND_NAME_LENGTH (strlen name)) as [Hname|Hname].
  { split; [reflexivity|]. intros H. exfalso. apply H. right. now left. }
  destruct (Nat.ltb_spec MAX_COMMAND_ARGS (strlen argTypes)) as [Hargs|Hargs].
  { split; [reflexivity|]. intros H. exfalso. apply H. right. right. now left. }
  destruct callback as [f|].
  2:{ split; [reflexivity|]. intros H. exfalso. apply H.
      do 3 right. now left. }
  destruct (argTypes_ok argTypes) eqn:Hok; simpl negb; cbv iota.
  2:{ split; [reflexivity|]. intros H. exfalso. apply H.
      do 4 right. rewrite <- argTypes_ok_spec. congruence. }
  apply argTypes_ok_spec in Hok. split.
  - intros [H|[H|[H|[H|H]]]]; try lia; try discriminate. contradiction.
  - intros _. eexists. split; [reflexivity|]. simpl.
    rewrite !strlcpy_fits by assumption.
    unfold stored at 1. simpl.
    rewrite stored_append by lia. auto.
Qed.

Lemma registerCommand_registry_ok st name argTypes callback :
  registry_ok MAX_COMMANDS MAX_COMMAND_ARGS MAX_COMMAND_NAME_LENGTH st ->
  registry_ok MAX_COMMANDS MAX_COMMAND_ARGS MAX_COMMAND_NAME_LENGTH
    (snd (registerCommand MAX_COMMANDS MAX_COMMAND_ARGS
            MAX_COMMAND_NAME_LENGTH st name argTypes callback)).
Proof.
  intros (Hle & Hlen & Hall). unfold registerCommand.
  destruct (Nat.eqb_spec (numCommands st) MAX_COMMANDS) as [Hn|Hn];
    [now repeat split|].
  destruct (Nat.ltb_spec MAX_COMMAND_NAME_LENGTH (strlen name)) as [Hname|Hname];
    [now repeat split|].
  destruct (Nat.ltb_spec MAX_COMMAND_ARGS (strlen argTypes)) as [Hargs|Hargs];
    [now repeat split|].
  destruct callback as [f|]; [|now repeat split].
  destruct (argTypes_ok argTypes) eqn:Hok; simpl negb; cbv iota;
    [|now repeat split].
  apply argTypes_ok_spec in Hok.
  rewrite !strlcpy_fits by assumption.
  split; [simpl; lia|]. split; [simpl; now rewrite length_insert|].
  unfold stored at 1. simpl. rewrite stored_append by lia.
  apply Forall_app. split; [assumption|].
  apply Forall_singleton. unfold command_ok. simpl.
  repeat split; auto using c_str_no_NUL.
Qed.

End RegisterCommand.

Section RegistryInvariant.

Variable MAX_COMMANDS : nat.
Variable MAX_COMMAND_ARGS : nat.
Variable MAX_COMMAND_NAME_LENGTH : nat.
Variable MAX_COMMAND_ARG_SIZE : nat.
Variable MAX_RESPONSE_SIZE : nat.
Variable double : Type.
Variable strtod : cstring -> double * nat.
Variable World : Type.

Implicit Types (st : State double World) (def : Command double World).

(** [processCommand] never writes the registry. *)
Lemma processCommand_registry st command response w :
  let st' := snd (fst (fst
    (processCommand MAX_COMMAND_NAME_LENGTH MAX_COMMAND_ARG_SIZE
       MAX_RESPONSE_SIZE strtod st command response w))) in
  commandDefinitions st' = commandDefinitions st
  /\ numCommands st' = numCommands st.
Proof.
  unfold processCommand.
  destruct (read_name _ _) as [name' cmd].
  destruct (lookup_command _ _) as [def|]; [|now split].
  destruct (parse_args _ _ _ _ _ _) as [[msg|cmd'] args]; [now split|].
  destruct (negb _); [now split|].
  destruct (callback def) as [f|]; [|now split].
  destruct (f args [] w) as [[args' resp'] w']. now split.
Qed.

(** C9.  The registry is well formed in every state of a parser: after
    any sequence of [registerCommand] and [processCommand] calls the
    command count is at most MAX_COMMANDS and every stored definition
    has a name of at most MAX_COMMAND_NAME_LENGTH bytes and an argTypes
    string of at most MAX_COMMAND_ARGS characters, all among d, u, i, s,
    both without a NUL before their terminator, and a handler that is
    not null; and [processCommand] leaves the definitions and the count
    as they were. *)
Theorem registry_well_formed st :
  reachable MAX_COMMANDS MAX_COMMAND_ARGS MAX_COMMAND_NAME_LENGTH
    MAX_COMMAND_ARG_SIZE MAX_RESPONSE_SIZE strtod st ->
  registry_ok MAX_COMMANDS MAX_COMMAND_ARGS MAX_COMMAND_NAME_LENGTH st
  /\ forall command response w,
       let st' := snd (fst (fst
         (processCommand MAX_COMMAND_NAME_LENGTH MAX_COMMAND_ARG_SIZE
            MAX_RESPONSE_SIZE strtod st command response w))) in
       commandDefinitions st' = commandDefinitions st
       /\ numCommands st' = numCommands st.
Proof.
  intros Hreach. split; [|intros; apply processCommand_registry].
  induction Hreach as [|st name argTypes callback _ IH
                       |st command response w _ IH].
  - unfold registry_ok, stored. simpl.
    split; [lia|]. split; [apply length_replicate|]. constructor.
  - now apply registerCommand_registry_ok.
  - destruct (processCommand_registry st command response w) as [Hd Hn].
    destruct IH as (Hle & Hlen & Hall).
    unfold registry_ok, stored. rewrite Hd, Hn. auto.
Qed.

End RegistryInvariant.

(** ** processCommand *)

Section ProcessCommandProperties.

Variable MAX_COMMANDS : nat.
Variable MAX_COMMAND_ARGS : nat.
Variable MAX_COMMAND_NAME_LENGTH : nat.
Variable MAX_COMMAND_ARG_SIZE : nat.
Variable MAX_RESPONSE_SIZE : nat.
Variable double : Type.
Variable strtod : cstring -> double * nat.
Variable World : Type.

Implicit Types (st : State double World) (def : Command double World).
Implicit Types (commandArgs args : list (Argument double)).

(** The argument loop keeps the size of the array, and what it reports
    is a parse error. *)
Lemma parse_args_frame argTypes : forall i command args,
  let r := parse_args MAX_COMMAND_ARG_SIZE strtod argTypes i command args in
  length (snd r) = length args
  /\ forall msg, fst r = ParseError msg ->
       exists m, msg = lit "parse error: " ++ m.
Proof.
  induction argTypes as [|t argTypes IH]; intros i command args; simpl.
  - split; [reflexivity|discriminate].
  - destruct (Ascii.eqb t NUL); [split; [reflexivity|discriminate]|].
    destruct (negb (Ascii.eqb (peek command) SPACE)).
    { split; [reflexivity|]. intros msg [= <-]. eexists. reflexivity. }
    destruct (Ascii.eqb t "d").
    { destruct (strtod _) as [d after].
      destruct (_ || _).
      - simpl. rewrite length_insert. split; [reflexivity|].
        intros msg [= <-]. eexists. reflexivity.
      - destruct (IH (S i) (drop after (skip_spaces (tail command)))
                    (<[i := asDouble d]> args)) as [Hl Hm].
        rewrite length_insert in Hl. now split. }
    destruct (Ascii.eqb t "u").
    { destruct (strToInt _ _ _ _) as [bytesRead v].
      destruct (_ || _).
      - simpl. rewrite length_insert. split; [reflexivity|].
        intros msg [= <-]. eexists. reflexivity.
      - destruct (IH (S i) (drop bytesRead (skip_spaces (tail command)))
                    (<[i := asUInt64 v]> args)) as [Hl Hm].
        rewrite length_insert in Hl. now split. }
    destruct (Ascii.eqb t "i").
    { destruct (strToInt _ _ _ _) as [bytesRead v].
      destruct (_ || _).
      - simpl. rewrite length_insert. split; [reflexivity|].
        intros msg [= <-]. eexists. reflexivity.
      - destruct (IH (S i) (drop bytesRead (skip_spaces (tail command)))
                    (<[i := asInt64 v]> args)) as [Hl Hm].
        rewrite length_insert in Hl. now split. }
    destruct (Ascii.eqb t "s").
    { destruct (parseString _ _) as [readCount output].
      destruct (Nat.eqb _ _).
      - simpl. rewrite length_insert. split; [reflexivity|].
        intros msg [= <-]. eexists. reflexivity.
      - destruct (IH (S i) (drop readCount (skip_spaces (tail command)))
                    (<[i := asString output]> args)) as [Hl Hm].
        rewrite length_insert in Hl. now split. }
    split; [reflexivity|]. intros msg [= <-]. eexists. reflexivity.
Qed.

(** C6, as the code has it.  A failing [processCommand] call invokes no
    handler (whatever the handlers do, the world is as before), leaves
    the registry (the definitions and the count) unchanged and the
    argument array at its size, and writes a parse error into the
    response buffer; when the failure is an unknown command name the
    whole state is unchanged.  The cells of the argument array are not
    promised to keep their content. *)
Theorem failed_call_effects st command response w :
  let '(ok, st', response', w') :=
    processCommand MAX_COMMAND_NAME_LENGTH MAX_COMMAND_ARG_SIZE
      MAX_RESPONSE_SIZE strtod st command response w in
  ok = false ->
  w' = w
  /\ commandDefinitions st' = commandDefinitions st
  /\ numCommands st' = numCommands st
  /\ length (commandArgs st') = length (commandArgs st)
  /\ (exists m, response' =
         snprintf response MAX_RESPONSE_SIZE (lit "parse error: " ++ m))
  /\ (lookup_command (stored st)
        (fst (read_name MAX_COMMAND_NAME_LENGTH command)) = None ->
      st' = st).
Proof.
  unfold processCommand, stored.
  destruct (read_name _ _) as [name' cmd]. simpl fst.
  destruct (lookup_command _ _) as [def|].
  2:{ intros _. repeat split; auto. eexists. reflexivity. }
  pose proof (parse_args_frame (argTypes def) 0 cmd (commandArgs st)) as Hf.
  destruct (parse_args _ _ _ _ _ _) as [[msg|cmd'] args];
    simpl in Hf; destruct Hf as [Hlen Hmsg].
  { intros _. destruct (Hmsg msg eq_refl) as [m ->].
    repeat split; auto; try discriminate. eexists. reflexivity. }
  destruct (negb _).
  { intros _. repeat split; auto; try discriminate. eexists. reflexivity. }
  destruct (callback def) as [f|]; [|discriminate].
  destruct (f args [] w) as [[args' resp'] w']. discriminate.
Qed.

(** The name loop on a line whose name token is longer than the bound:
    it takes the first bytes and stops inside the token. *)
Lemma read_name_long n : forall command,
  (n < length (name_token command))%nat ->
  read_name n command = (take n command, drop n command)
  /\ peek (drop n command) <> SPACE
  /\ peek (drop n command) <> NUL.
Proof.
  induction n as [|n IH]; intros [|c command]; simpl; try lia.
  - destruct (Ascii.eqb_spec c SPACE) as [->|Hs]; [simpl; lia|].
    destruct (Ascii.eqb_spec c NUL) as [->|H0]; [simpl; lia|].
    auto.
  - destruct (Ascii.eqb c SPACE || Ascii.eqb c NUL); simpl; [lia|].
    intros H. destruct (IH command) as (-> & Hs & H0); [lia|]. auto.
Qed.

Lemma skip_spaces_none command :
  peek command <> SPACE -> skip_spaces command = command.
Proof.
  destruct command as [|c command]; simpl; [reflexivity|].
  intros H. now rewrite (eqb_false_of_neq _ _ H).
Qed.

(** C5, as the code has it.  For a line whose command-name token is
    longer than MAX_COMMAND_NAME_LENGTH, [processCommand] takes the
    first MAX_COMMAND_NAME_LENGTH bytes as the name and the call fails
    without invoking a handler.  When no registered name equals the
    truncated name, the error is the unknown-command-name error with
    the truncated name, and the state is unchanged.  When a registered
    name equals it, the error is the one of the byte that follows the
    truncated name: too many args for a command without arguments,
    missing whitespace before arg 1 otherwise.  No error kind of its own
    exists for an over-length name. *)
Theorem over_length_name_fails st command response w :
  (MAX_COMMAND_NAME_LENGTH < length (name_token command))%nat ->
  let name' := take MAX_COMMAND_NAME_LENGTH command in
  let '(ok, st', response', w') :=
    processCommand MAX_COMMAND_NAME_LENGTH MAX_COMMAND_ARG_SIZE
      MAX_RESPONSE_SIZE strtod st command response w in
  read_name MAX_COMMAND_NAME_LENGTH command
    = (name', drop MAX_COMMAND_NAME_LENGTH command)
  /\ ok = false /\ w' = w
  /\ match lookup_command (stored st) name' with
     | None =>
       st' = st
       /\ response' =
          snprintf response MAX_RESPONSE_SIZE
            (lit "parse error: unknown command name " ++ name')
     | Some def =>
       response' =
       snprintf response MAX_RESPONSE_SIZE
         (if Nat.eqb (strlen (argTypes def)) 0
          then lit "parse error: too many args (expected 0)"
          else lit "parse error: missing whitespace before arg 1")
     end.
Proof.
  intros Hlong name'.
  destruct (read_name_long _ _ Hlong) as (Hread & Hs & H0).
  unfold processCommand, stored. rewrite Hread. fold name'.
  destruct (lookup_command _ _) as [def|]; [|now repeat split].
  destruct (argTypes def) as [|t argTypes'] eqn:Htypes; simpl.
  - rewrite skip_spaces_none by assumption.
    rewrite (eqb_false_of_neq _ _ H0). simpl. now repeat split.
  - unfold strlen. simpl.
    destruct (Ascii.eqb t NUL).
    + rewrite skip_spaces_none by assumption.
      rewrite (eqb_false_of_neq _ _ H0). simpl. now repeat split.
    + rewrite (eqb_false_of_neq _ _ Hs). simpl. now repeat split.
Qed.

(** *** A line that matches a registered command *)

Lemma read_name_exact name' : forall n rest,
  SPACE ∉ name' -> NUL ∉ name' -> (length name' <= n)%nat ->
  separator (peek rest) ->
  read_name n (name' ++ rest) = (name', rest).
Proof.
  induction name' as [|c name' IH]; intros n rest Hs H0 Hn Hsep.
  - destruct n as [|n]; [reflexivity|].
    destruct rest as [|c rest]; [reflexivity|]. simpl in *.
    destruct Hsep as [-> | ->]; reflexivity.
  - destruct n as [|n]; [simpl in Hn; lia|].
    apply not_elem_of_cons in Hs as [Hs Hs'].
    apply not_elem_of_cons in H0 as [H0 H0'].
    simpl. rewrite (eqb_false_of_neq c SPACE), (eqb_false_of_neq c NUL)
      by congruence.
    simpl. rewrite IH; auto. simpl in Hn. lia.
Qed.

(** The lookup finds the first definition stored under a name. *)
Lemma lookup_command_first (defs : list (Command double World)) :
  forall k def,
    Forall (fun d => NUL ∉ name d) defs ->
    defs !! k = Some def ->
    (forall j d, (j < k)%nat -> defs !! j = Some d -> name d <> name def) ->
    lookup_command defs (name def) = Some def.
Proof.
  induction defs as [|d0 defs IH]; intros k def Hnul Hk Hfirst.
  - discriminate Hk.
  - apply Forall_cons in Hnul as [Hnul0 Hnul].
    assert (Hdef : NUL ∉ name def).
    { apply list_elem_of_lookup_2 in Hk. apply elem_of_cons in Hk as [->|Hk];
        [assumption|].
      rewrite Forall_forall in Hnul. now apply Hnul. }
    simpl. unfold strcmp_eq. rewrite !c_str_id by assumption.
    destruct k as [|k].
    + injection Hk as ->. now rewrite decide_True.
    + rewrite decide_False by (apply (Hfirst 0%nat); [lia|reflexivity]).
      apply (IH k); auto.
      intros j d Hj Hd. apply (Hfirst (S j)); [lia|exact Hd].
Qed.

Lemma skip_spaces_replicate n tok :
  peek tok <> SPACE -> skip_spaces (replicate n SPACE ++ tok) = tok.
Proof.
  intros H. induction n as [|n IH]; simpl; [|exact IH].
  now apply skip_spaces_none.
Qed.

Lemma skip_spaces_trailing n : skip_spaces (replicate n SPACE) = [].
Proof. induction n as [|n IH]; simpl; [reflexivity|exact IH]. Qed.

Lemma strToInt_space T tok mn mx : strToInt T (SPACE :: tok) mn mx = (0%nat, 0).
Proof.
  unfold strToInt, parse_sign. simpl. now destruct (mn <? 0).
Qed.

Lemma token_for_head t tok a :
  token_for MAX_COMMAND_ARG_SIZE strtod t tok a ->
  peek tok <> SPACE /\ arg_type t.
Proof.
  unfold arg_type.
  intros [Htok [(-> & d & _ & Hs & _)|[(-> & v & _ & H)|[(-> & v & _ & H)
                |(-> & o & _ & H)]]]]; (split; [|tauto]); try assumption;
    destruct tok as [|c tok]; try congruence; simpl; intros ->.
  - unfold strToInt_u64 in H. rewrite strToInt_space in H. discriminate H.
  - unfold strToInt_i64 in H. rewrite strToInt_space in H. discriminate H.
  - rewrite parseString_space in H. discriminate H.
Qed.

Lemma separator_arguments items rest :
  separator (peek rest) -> separator (peek (arguments_text items ++ rest)).
Proof.
  destruct items as [|[n tok] items]; [auto|]. intros _. now left.
Qed.

Lemma arguments_text_cons n tok items rest :
  arguments_text ((n, tok) :: items) ++ rest
  = replicate (S n) SPACE ++ tok ++ arguments_text items ++ rest.
Proof.
  unfold arguments_text. cbn [flat_map fst snd].
  now rewrite <- !app_assoc.
Qed.

Lemma peek_app_nonempty (tok rest : cstring) :
  tok <> [] -> peek (tok ++ rest) = peek tok.
Proof. now destruct tok. Qed.

(** One argument of the argument loop. *)
Lemma parse_args_token t n tok a rest argTypes i args :
  token_for MAX_COMMAND_ARG_SIZE strtod t tok a ->
  separator (peek rest) ->
  parse_args MAX_COMMAND_ARG_SIZE strtod (t :: argTypes) i
    (replicate (S n) SPACE ++ tok ++ rest) args
  = parse_args MAX_COMMAND_ARG_SIZE strtod argTypes (S i) rest
      (<[i := a]> args).
Proof.
  intros Htok Hsep.
  destruct (token_for_head _ _ _ Htok) as [Hhead _].
  destruct Htok as [Hne Htok].
  assert (Hskip : skip_spaces (replicate n SPACE ++ tok ++ rest)
                  = tok ++ rest).
  { apply skip_spaces_replicate. now rewrite peek_app_nonempty. }
  assert (Hlen : Nat.eqb (length tok) 0 = false).
  { destruct tok; [congruence|reflexivity]. }
  assert (Hend : negb (Ascii.eqb (peek (drop (length tok) (tok ++ rest))) SPACE)
                 && negb (Ascii.eqb (peek (drop (length tok) (tok ++ rest))) NUL)
                 = false).
  { rewrite drop_app_length. destruct Hsep as [-> | ->]; reflexivity. }
  destruct Htok as [(-> & d & -> & _ & H)|[(-> & v & -> & H)|[(-> & v & -> & H)
                   |(-> & o & -> & H)]]];
    simpl; rewrite Hskip.
  - rewrite (H rest Hsep), Hlen, Hend. simpl. now rewrite drop_app_length.
  - unfold strToInt_u64 in H. rewrite strToInt_app, H, Hlen, Hend by assumption.
    simpl. now rewrite drop_app_length.
  - unfold strToInt_i64 in H. rewrite strToInt_app, H, Hlen, Hend by assumption.
    simpl. now rewrite drop_app_length.
  - rewrite (parseString_app _ _ _ _ Hsep Hne H), Hlen.
    now rewrite drop_app_length.
Qed.

(** The argument loop on the text of valid tokens: the values go into
    the cells [i], [i + 1], ... and the cursor ends behind the last
    token. *)
Lemma parse_args_tokens argTypes :
  forall (items : list (nat * cstring * Argument double)) i rest args,
    Forall2 (fun t item =>
               token_for MAX_COMMAND_ARG_SIZE strtod t (snd (fst item))
                 (snd item)) argTypes items ->
    separator (peek rest) ->
    (i + length items <= length args)%nat ->
    parse_args MAX_COMMAND_ARG_SIZE strtod argTypes i
      (arguments_text (map fst items) ++ rest) args
    = (ParseDone rest,
       take i args ++ map snd items ++ drop (i + length items) args).
Proof.
  induction argTypes as [|t argTypes IH];
    intros items i rest args Hall Hsep Hlen.
  - apply Forall2_nil_inv_l in Hall as ->. simpl.
    now rewrite Nat.add_0_r, take_drop.
  - apply Forall2_cons_inv_l in Hall as ([[n tok] a] & items' & Ht & Hall & ->).
    simpl in Ht. rewrite map_cons. simpl fst at 1.
    rewrite arguments_text_cons.
    rewrite (parse_args_token t n tok a) by
      (assumption || now apply separator_arguments).
    simpl in Hlen.
    rewrite IH by (rewrite ?length_insert; auto; lia).
    f_equal.
    rewrite (take_S_r _ _ a) by (apply list_lookup_insert_eq; lia).
    rewrite take_insert_ge by lia.
    rewrite drop_insert_lt by lia.
    rewrite <- app_assoc. simpl.
    now replace (i + S (length items'))%nat with (S (i + length items'))
      by lia.
Qed.

(** C2, as the code has it.  Take a well-formed registry, an argument
    array of MAX_COMMAND_ARGS cells, and a stored command that is the
    first one stored under its name and whose name holds no space.  For
    every line made of that name followed by, for each declared argument
    type in order, one or more spaces and a token valid for the type,
    then any number of trailing spaces: [processCommand] calls the
    handler of that command once, on the argument array that holds the
    values of the tokens in cells 0 .. arity-1 in declared order (the
    other cells as before) and on the empty response, and returns true;
    the response and the world are what the handler leaves, so a handler
    that writes nothing leaves the response empty. *)
Theorem matching_line_reaches_handler st k def
    (items : list (nat * cstring * Argument double)) trailing response w :
  registry_ok MAX_COMMANDS MAX_COMMAND_ARGS MAX_COMMAND_NAME_LENGTH st ->
  length (commandArgs st) = MAX_COMMAND_ARGS ->
  stored st !! k = Some def ->
  (forall j d, (j < k)%nat -> stored st !! j = Some d -> name d <> name def) ->
  SPACE ∉ name def ->
  Forall2 (fun t item =>
             token_for MAX_COMMAND_ARG_SIZE strtod t (snd (fst item))
               (snd item)) (argTypes def) items ->
  exists f,
    callback def = Some f
    /\ processCommand MAX_COMMAND_NAME_LENGTH MAX_COMMAND_ARG_SIZE
         MAX_RESPONSE_SIZE strtod st
         (command_line (name def) (map fst items) trailing) response w
       = let args := map snd items ++ drop (length items) (commandArgs st) in
         let '(args', response', w') := f args [] w in
         (true,
          {| commandArgs := args';
             commandDefinitions := commandDefinitions st;
             numCommands := numCommands st |},
          response', w').
Proof.
  intros (Hle & Hlen & Hall) Hargs Hk Hfirst Hspace Htok.
  assert (Hdef : command_ok MAX_COMMAND_ARGS MAX_COMMAND_NAME_LENGTH def).
  { rewrite Forall_forall in Hall. apply Hall.
    now apply list_elem_of_lookup_2 in Hk. }
  destruct Hdef as (Hname & Hnul & Harity & Htypes & Hcb).
  destruct (callback def) as [f|] eqn:Hf; [|congruence].
  exists f. split; [reflexivity|].
  assert (Hsep : separator (peek (replicate trailing SPACE))).
  { destruct trailing; [now right|now left]. }
  unfold processCommand, command_line.
  rewrite read_name_exact by (auto using separator_arguments).
  fold (stored st).
  rewrite (lookup_command_first (stored st) k def); auto.
  2:{ eapply Forall_impl; [exact Hall|]. now intros d (_ & H & _). }
  pose proof (Forall2_length _ _ _ Htok) as Hitems.
  rewrite (parse_args_tokens (argTypes def) items 0) by (auto; lia).
  rewrite skip_spaces_trailing. simpl. rewrite Hf.
  now destruct (f _ [] w) as [[args' response'] w'].
Qed.

End ProcessCommandProperties.

(** ** The instance: scenarios, and the statements at concrete inputs *)

Section Scenarios.

Import Demo.

Local Abbreviation response_of r := (string_of_list_ascii (snd (fst r))).
Local Abbreviation ok_of r := (fst (fst (fst r))).
Local Abbreviation args_of r := (commandArgs (snd (fst (fst r)))).
Local Abbreviation world_of r := (snd r).

Example move_45_minus_23 :
  let r := processCommand parser1 (lit "move 45 -23") [] [] in
  ok_of r = true
  /\ world_of r = [[asInt64 45; asInt64 (-23); asString []; asString []]]
  /\ response_of r = ""%string.
Proof. vm_compute. auto. Qed.

Example unknown_command :
  let r := processCommand parser1 (lit "invalid") [] [] in
  ok_of r = false
  /\ response_of r = "parse error: unknown command name invalid"%string.
Proof. vm_compute. auto. Qed.

Example invalid_integer :
  let r := processCommand parser1 (lit "move 123abc 456") [] [] in
  ok_of r = false
  /\ response_of r = "parse error: invalid int64_t for arg 1"%string.
Proof. vm_compute. auto. Qed.

Example too_many_args :
  let r := processCommand parser2 (lit "abcdefghij 123") [] [] in
  ok_of r = false
  /\ response_of r = "parse error: too many args (expected 0)"%string.
Proof. vm_compute. auto. Qed.

Example say_hello_world :
  let r := processCommand parser3
             (lit "say " ++ [QUOTE] ++ lit "Hello, " ++ [BACKSLASH; QUOTE]
              ++ lit "world!" ++ [BACKSLASH; QUOTE; QUOTE]) [] [] in
  ok_of r = true
  /\ args_of r !! 0%nat
     = Some (asString (lit "Hello, " ++ [QUOTE] ++ lit "world!" ++ [QUOTE])).
Proof. vm_compute. auto. Qed.

Example missing_closing_quote :
  let r := processCommand parser3 (lit "say " ++ [QUOTE] ++ lit "abc") [] [] in
  ok_of r = false
  /\ response_of r = "parse error: invalid string for arg 1"%string.
Proof. vm_compute. auto. Qed.

Example unquoted_word :
  let r := processCommand parser3 (lit "say   hello  ") [] [] in
  ok_of r = true /\ args_of r !! 0%nat = Some (asString (lit "hello")).
Proof. vm_compute. auto. Qed.

Example decimal_of_minimum :
  decimal INT64_MIN = lit "-9223372036854775808"
  /\ decimal 0 = lit "0" /\ decimal UINT64_MAX = lit "18446744073709551615".
Proof. vm_compute. auto. Qed.

(** C1.  The signed parser does not reject every value below -2^63.
    The loop accumulates the magnitude of a negative number as a
    non-negative value, so its guard before the addition, which compares
    with [min_value + digit], never fires: the token -9223372036854775809
    passes both guards, the addition leaves the range of an int64_t, and
    the call reports 20 bytes read with the value 9223372036854775807;
    [processCommand] hands that value to the handler.  The overflowing
    tokens that the specification names are rejected. *)
Theorem strToInt_accepts_below_minimum :
  strToInt_i64 (lit "-9223372036854775809") = (20%nat, 9223372036854775807)
  /\ (let r := processCommand parser1 (lit "move -9223372036854775809 0")
                 [] [] in
      ok_of r = true
      /\ world_of r = [[asInt64 9223372036854775807; asInt64 0;
                        asString []; asString []]])
  /\ fst (strToInt_i64 (lit "99999999999999999999")) = 0%nat
  /\ fst (strToInt_u64 (lit "99999999999999999999")) = 0%nat.
Proof. vm_compute. auto. Qed.

(** C2 fails as stated: a command registered within the bounds whose
    name holds a space is never matched, and of two commands registered
    under one name only the first is. *)
Lemma registered_command_not_reached :
  (let reg := registerCommand parser0 (lit "a b") (lit "") (Some handler) in
   fst reg = true
   /\ let r := processCommand (snd reg) (lit "a b") [] [] in
      ok_of r = false
      /\ response_of r = "parse error: unknown command name a"%string)
  /\ (let reg := registerCommand parser1 (lit "move") (lit "s")
                   (Some handler) in
      fst reg = true
      /\ let r := processCommand (snd reg) (lit "move word") [] [] in
         ok_of r = false
         /\ response_of r
            = "parse error: invalid int64_t for arg 1"%string).
Proof. vm_compute. auto 10. Qed.

(** C4 fails as stated: the digit string 5 parses as a uint64_t, the
    token +5 does not. *)
Lemma unsigned_rejects_plus :
  strToInt_u64 (lit "5") = (1%nat, 5)
  /\ fst (strToInt_u64 (lit "+5")) = 0%nat.
Proof. vm_compute. auto. Qed.

(** C5 fails as stated: the name token abcdefghijk is longer than the
    bound, its first 10 bytes are a registered name, and the error is
    not the unknown-command-name error. *)
Lemma over_length_name_matches_registered :
  (MAX_COMMAND_NAME_LENGTH < length (name_token (lit "abcdefghijk")))%nat
  /\ let r := processCommand parser2 (lit "abcdefghijk") [] [] in
     ok_of r = false
     /\ response_of r = "parse error: too many args (expected 0)"%string.
Proof. vm_compute. auto. Qed.

(** C6 fails as stated: the failing call on [move 45 abc] has
    overwritten the first two cells of the argument array. *)
Lemma failed_call_overwrites_arguments :
  let r := processCommand parser1 (lit "move 45 abc") [] [] in
  ok_of r = false
  /\ commandArgs parser1
     = [asString []; asString []; asString []; asString []]
  /\ args_of r = [asInt64 45; asInt64 0; asString []; asString []].
Proof. vm_compute. auto. Qed.

End Scenarios.

(** ** The general statements at concrete inputs *)

Ltac not_in_literal :=
  repeat (apply not_elem_of_cons; split; [discriminate|]);
  apply not_elem_of_nil.

Lemma Demo_strtol_hex_pair h1 h2 v1 v2 :
  hex_digit_value h1 = Some v1 -> hex_digit_value h2 = Some v2 ->
  Demo.strtol [h1; h2] 16 = (16 * v1 + v2, 2%nat).
Proof.
  intros H1 H2. unfold Demo.strtol. simpl. rewrite H1, H2.
  f_equal; lia.
Qed.

Lemma Demo_parser1_ok :
  registry_ok Demo.MAX_COMMANDS Demo.MAX_COMMAND_ARGS
    Demo.MAX_COMMAND_NAME_LENGTH Demo.parser1.
Proof.
  split; [vm_compute; lia|]. split; [reflexivity|].
  apply Forall_singleton. unfold command_ok. simpl.
  split; [vm_compute; lia|]. split; [not_in_literal|].
  split; [vm_compute; lia|]. split; [|discriminate].
  repeat constructor; unfold arg_type; tauto.
Qed.

Lemma matching_line_reaches_handler_witness :
  Demo.processCommand Demo.parser1 (lit "move 45 -23") [] []
  = (true,
     {| commandArgs := [asInt64 45; asInt64 (-23); asString []; asString []];
        commandDefinitions := commandDefinitions Demo.parser1;
        numCommands := 1 |},
     [], [[asInt64 45; asInt64 (-23); asString []; asString []]]).
Proof.
  destruct (matching_line_reaches_handler
    Demo.MAX_COMMANDS Demo.MAX_COMMAND_ARGS Demo.MAX_COMMAND_NAME_LENGTH
    Demo.MAX_COMMAND_ARG_SIZE Demo.MAX_RESPONSE_SIZE unit Demo.strtod
    Demo.World Demo.parser1 0%nat
    (mkCommand (lit "move") (lit "ii") (Some Demo.handler))
    [(0%nat, lit "45", asInt64 45); (0%nat, lit "-23", asInt64 (-23))]
    0%nat [] []) as (f & Hf & H).
  - exact Demo_parser1_ok.
  - reflexivity.
  - reflexivity.
  - intros j d Hj. lia.
  - simpl. not_in_literal.
  - constructor; [|constructor; [|constructor]];
      (split; [discriminate|]); right; right; left;
      (split; [reflexivity|]); eexists;
      (split; [reflexivity|]); vm_compute; reflexivity.
  - simpl in Hf. injection Hf as <-. exact H.
Defined.

Lemma integer_round_trip_witness :
  strToInt_i64 (lit "-9223372036854775808") = (20%nat, -9223372036854775808)
  /\ strToInt_u64 (lit "18446744073709551615")
     = (20%nat, 18446744073709551615).
Proof.
  split.
  - apply (proj1 (integer_round_trip (-9223372036854775808))).
    unfold INT64_MIN, INT64_MAX. lia.
  - apply (proj2 (integer_round_trip 18446744073709551615)).
    unfold UINT64_MAX. lia.
Defined.

Lemma unsigned_takes_no_sign_witness :
  fst (strToInt_u64 (lit "+5")) = 0%nat.
Proof.
  apply (proj1 (unsigned_takes_no_sign (lit "+5") (or_introl eq_refl))).
Defined.

Lemma over_length_name_fails_witness :
  snd (fst (Demo.processCommand Demo.parser2 (lit "abcdefghijk") [] []))
  = lit "parse error: too many args (expected 0)".
Proof.
  assert (Hlong : (Demo.MAX_COMMAND_NAME_LENGTH
                   < length (name_token (lit "abcdefghijk")))%nat)
    by (vm_compute; lia).
  pose proof (over_length_name_fails Demo.MAX_COMMAND_NAME_LENGTH
    Demo.MAX_COMMAND_ARG_SIZE Demo.MAX_RESPONSE_SIZE unit Demo.strtod
    Demo.World Demo.parser2 (lit "abcdefghijk") [] [] Hlong) as H.
  cbv zeta in H. unfold Demo.processCommand.
  destruct (processCommand _ _ _ _ _ _ _ _) as [[[ok st'] response'] w'].
  destruct H as (_ & _ & _ & H).
  exact H.
Defined.

Lemma failed_call_effects_witness :
  snd (Demo.processCommand Demo.parser1 (lit "move 45 abc") [] []) = [].
Proof.
  pose proof (failed_call_effects Demo.MAX_COMMAND_NAME_LENGTH
    Demo.MAX_COMMAND_ARG_SIZE Demo.MAX_RESPONSE_SIZE unit Demo.strtod
    Demo.World Demo.parser1 (lit "move 45 abc") [] []) as H.
  unfold Demo.processCommand.
  destruct (processCommand _ _ _ _ _ _ _ _) as [[[ok st'] response'] w']
    eqn:E.
  vm_compute in E. injection E as <- _ _ _.
  apply (proj1 (H eq_refl)).
Defined.

Lemma registerCommand_all_or_nothing_witness :
  Demo.registerCommand Demo.parser1 (lit "jump") (lit "q") (Some Demo.handler)
  = (false, Demo.parser1)
  /\ exists st',
       Demo.registerCommand Demo.parser0 (lit "move") (lit "ii")
         (Some Demo.handler) = (true, st')
       /\ stored st' = [mkCommand (lit "move") (lit "ii") (Some Demo.handler)].
Proof.
  split.
  - apply (registerCommand_all_or_nothing Demo.MAX_COMMANDS
      Demo.MAX_COMMAND_ARGS Demo.MAX_COMMAND_NAME_LENGTH unit Demo.World
      Demo.parser1 (lit "jump") (lit "q") (Some Demo.handler)).
    + vm_compute. lia.
    + reflexivity.
    + do 4 right. intros H. apply Forall_cons in H as [H _].
      unfold arg_type in H. decompose [or] H; discriminate.
  - destruct (registerCommand_all_or_nothing Demo.MAX_COMMANDS
      Demo.MAX_COMMAND_ARGS Demo.MAX_COMMAND_NAME_LENGTH unit Demo.World
      Demo.parser0 (lit "move") (lit "ii") (Some Demo.handler))
      as [_ H].
    + vm_compute. lia.
    + reflexivity.
    + destruct H as (st' & Hreg & Hstored & _).
      * intros [H|[H|[H|[H|H]]]]; try (vm_compute in H; lia);
          try discriminate H.
        apply H. repeat constructor; unfold arg_type; tauto.
      * exists st'. split; [exact Hreg|exact Hstored].
Defined.

Lemma escape_sequences_decode_witness :
  parseString Demo.MAX_COMMAND_ARG_SIZE
    (QUOTE :: encode_all [EscHex "4" "1"; EscHex "4" "2"; EscHex "4" "3"]
     ++ [QUOTE])
  = (14%nat, lit "ABC")
  /\ Legacy.parseString Demo.MAX_COMMAND_ARG_SIZE Demo.strtol
       (QUOTE :: encode_all [EscN; EscR; EscT; EscQuote; EscBackslash]
        ++ [QUOTE])
     = Some (12%nat, [LF; CR; TAB; QUOTE; BACKSLASH]).
Proof.
  split.
  - apply (proj1 (escape_sequences_decode
      Demo.MAX_COMMAND_ARG_SIZE Demo.strtol
      [EscHex "4" "1"; EscHex "4" "2"; EscHex "4" "3"]
      Demo_strtol_hex_pair
      ltac:(repeat constructor; simpl; eauto))
      ltac:(vm_compute; lia) []).
  - apply (proj1 (escape_sequences_decode
      Demo.MAX_COMMAND_ARG_SIZE Demo.strtol
      [EscN; EscR; EscT; EscQuote; EscBackslash]
      Demo_strtol_hex_pair
      ltac:(repeat constructor))
      ltac:(vm_compute; lia) []).
Defined.

Lemma registry_well_formed_witness :
  registry_ok Demo.MAX_COMMANDS Demo.MAX_COMMAND_ARGS
    Demo.MAX_COMMAND_NAME_LENGTH
    (snd (fst (fst (Demo.processCommand Demo.parser1 (lit "move 1 2")
                      [] [])))).
Proof.
  apply (registry_well_formed Demo.MAX_COMMANDS Demo.MAX_COMMAND_ARGS
    Demo.MAX_COMMAND_NAME_LENGTH Demo.MAX_COMMAND_ARG_SIZE
    Demo.MAX_RESPONSE_SIZE unit Demo.strtod Demo.World).
  apply reachable_processCommand.
  apply reachable_registerCommand.
  apply reachable_init.
Defined.

(** * Further properties *)

(** ** strToInt *)

Lemma strToInt_loop_cons T mn mx base neg c buf pos dig val :
  strToInt_loop T mn mx base neg (c :: buf) pos dig val =
  match next_digit base c with
  | None =>
    (if dig =? -1 then 0%nat else pos,
     if neg then wrap T (val * -1) else val)
  | Some d =>
    if (val <? Z.quot mn base) || (val >? Z.quot mx base)
    then (0%nat, val)
    else if (if neg then wrap T (val * base) <? mn + d
             else wrap T (val * base) >? mx - d)
    then (0%nat, wrap T (val * base))
    else strToInt_loop T mn mx base neg buf (S pos) d
           (wrap T (wrap T (val * base) + d))
  end.
Proof. reflexivity. Qed.

Lemma next_digit_lt base c d :
  base = 2 \/ base = 8 \/ base = 10 \/ base = 16 ->
  next_digit base c = Some d -> 0 <= d < base.
Proof.
  intros [->|[->|[->| ->]]] H; each_ascii c; vm_compute in H;
    try discriminate H; injection H as <-; lia.
Qed.

Lemma parse_base_cases buf :
  let base := fst (parse_base buf) in
  base = 2 \/ base = 8 \/ base = 10 \/ base = 16.
Proof.
  unfold parse_base.
  repeat match goal with
         | |- context [if ?b then _ else _] => destruct b
         end; simpl; auto.
Qed.

Lemma digits_value_ge base buf : forall acc,
  0 < base -> 0 <= acc -> acc <= digits_value base buf acc.
Proof.
  induction buf as [|c buf IH]; intros acc Hbase Hacc; simpl; [lia|].
  destruct (next_digit base c) as [d|] eqn:Hd; [|lia].
  pose proof (next_digit_range _ _ _ Hd).
  etransitivity; [|apply IH; nia]. nia.
Qed.

(** The loop under a minus sign.  The magnitude is accumulated without
    a guard on the addition; once it has left the range no further digit
    is accepted. *)
Lemma strToInt_loop_minus base :
  base = 2 \/ base = 8 \/ base = 10 \/ base = 16 ->
  forall buf pos dig val,
    0 <= val <= INT64_MAX ->
    fst (strToInt_loop Int64 INT64_MIN INT64_MAX base true buf pos dig val)
      <> 0%nat ->
    snd (strToInt_loop Int64 INT64_MIN INT64_MAX base true buf pos dig val)
    = wrap Int64 (wrap Int64 (digits_value base buf val) * -1)
    /\ 0 <= digits_value base buf val <= 2 ^ 63 + 1
    /\ (base <> 10 -> digits_value base buf val <= INT64_MAX).
Proof.
  intros Hbase.
  assert (Hpos : 0 < base) by lia.
  assert (Hid : forall z, 0 <= z <= INT64_MAX -> wrap Int64 z = z).
  { intros z Hz. apply wrap_Int64_id. unfold INT64_MIN, INT64_MAX in *. lia. }
  induction buf as [|c buf IH]; intros pos dig val Hval.
  - cbn [strToInt_loop digits_value fst snd]. intros _.
    rewrite (Hid val) by lia.
    unfold INT64_MAX in *. repeat split; lia.
  - rewrite strToInt_loop_cons. cbn [digits_value].
    destruct (next_digit base c) as [d|] eqn:Hd.
    2:{ cbn [fst snd]. intros _. rewrite (Hid val) by lia.
        unfold INT64_MAX in *. repeat split; lia. }
    pose proof (next_digit_lt _ _ _ Hbase Hd) as Hdr.
    destruct (Z.ltb_spec val (Z.quot INT64_MIN base)) as [?|_];
      [cbn [orb fst]; congruence|].
    destruct (Z.gtb_spec val (Z.quot INT64_MAX base)) as [?|Hq];
      [cbn [orb fst]; congruence|].
    cbn [orb].
    assert (Hmul : 0 <= val * base <= INT64_MAX).
    { split; [nia|].
      rewrite Z.quot_div_nonneg in Hq by (unfold INT64_MAX; lia).
      pose proof (Z.mul_div_le INT64_MAX base Hpos). nia. }
    rewrite (Hid (val * base)) by lia.
    destruct (Z.ltb_spec (val * base) (INT64_MIN + d)) as [Hlt|_].
    { exfalso. unfold INT64_MIN in Hlt. lia. }
    destruct (Z_le_gt_dec (val * base + d) INT64_MAX) as [Hfit|Hover].
    { rewrite (Hid (val * base + d)) by lia. apply IH. lia. }
    assert (Hten : base = 10
                   /\ (val * base + d = 2 ^ 63 \/ val * base + d = 2 ^ 63 + 1)).
    { rewrite Z.quot_div_nonneg in Hq by (unfold INT64_MAX; lia).
      unfold INT64_MAX in *.
      destruct Hbase as [->|[->|[->| ->]]];
        match type of Hq with
        | context [Z.div ?a ?b] =>
          let q := eval vm_compute in (Z.div a b) in
          change (Z.div a b) with q in Hq
        end; lia. }
    destruct Hten as [-> Hval1].
    assert (Hw : wrap Int64 (val * 10 + d) = val * 10 + d - 2 ^ 64).
    { destruct Hval1 as [-> | ->]; reflexivity. }
    rewrite Hw.
    destruct buf as [|c' buf].
    + cbn [strToInt_loop digits_value fst snd]. intros _. rewrite Hw.
      repeat split; try lia; congruence.
    + rewrite strToInt_loop_cons. cbn [digits_value].
      destruct (next_digit 10 c') as [d'|] eqn:Hd'.
      * destruct (Z.ltb_spec (val * 10 + d - 2 ^ 64) (Z.quot INT64_MIN 10))
          as [_|Hge]; [cbn [orb fst]; congruence|].
        exfalso. revert Hge.
        change (Z.quot INT64_MIN 10) with (-922337203685477580). lia.
      * cbn [fst snd]. intros _. rewrite Hw.
        repeat split; try lia; congruence.
Qed.

(** X3.  A token with a minus sign that the signed parser accepts has a
    magnitude of at most 2^63 + 1, and of at most 2^63 - 1 when it
    carries a base identifier (so -2^63 can be written in decimal
    only); whenever the magnitude is at most 2^63 the value is exactly
    minus the magnitude. *)
Theorem strToInt_i64_minus_sign (buf : cstring) :
  fst (strToInt_i64 ("-"%char :: buf)) <> 0%nat ->
  let m := numeral_value buf in
  0 <= m <= 2 ^ 63 + 1
  /\ (fst (parse_base buf) <> 10 -> m <= INT64_MAX)
  /\ (m <= 2 ^ 63 -> snd (strToInt_i64 ("-"%char :: buf)) = - m).
Proof.
  unfold strToInt_i64, numeral_value. rewrite strToInt_eq.
  change (parse_sign INT64_MIN ("-"%char :: buf)) with (true, 1%nat).
  cbn [fst snd]. cbv zeta.
  change (drop 1 ("-"%char :: buf)) with buf.
  pose proof (parse_base_cases buf) as Hbase. cbv zeta in Hbase.
  destruct (parse_base buf) as [base skip]. cbn [fst snd] in *.
  change (drop (1 + skip) ("-"%char :: buf)) with (drop skip buf).
  intros Hn.
  destruct (strToInt_loop_minus base Hbase (drop skip buf) (1 + skip) (-1) 0)
    as (Hv & Hm & Hb); [unfold INT64_MAX; lia|exact Hn|].
  split; [exact Hm|]. split; [exact Hb|].
  intros Hle. rewrite Hv. apply wrap_Int64_negate. lia.
Qed.

(** X4.  [strToInt] stops at a separator: it reads a text that is
    followed by a space or by the terminator exactly as it reads the
    text alone, for both integer types and whatever the bounds. *)
Theorem strToInt_stops_at_separator T (tok rest : cstring) (mn mx : Z) :
  separator (peek rest) ->
  strToInt T (tok ++ rest) mn mx = strToInt T tok mn mx.
Proof. apply strToInt_app. Qed.

Lemma next_digit_not_NUL base c d : next_digit base c = Some d -> c <> NUL.
Proof.
  intros H ->. rewrite next_digit_separator in H by now right.
  discriminate H.
Qed.

Lemma strlen_cons c s : c <> NUL -> strlen (c :: s) = S (strlen s).
Proof.
  intros H. unfold strlen. simpl. now rewrite (eqb_false_of_neq _ _ H).
Qed.

Lemma strToInt_loop_count T mn mx base neg : forall buf pos dig val,
  let n := fst (strToInt_loop T mn mx base neg buf pos dig val) in
  (n <= pos + strlen buf)%nat
  /\ (n = 0%nat \/ (pos <= n)%nat)
  /\ (dig = -1 -> n <> 0%nat -> (pos < n)%nat).
Proof.
  induction buf as [|c buf IH]; intros pos dig val.
  - cbn [strToInt_loop fst]. destruct (Z.eqb_spec dig (-1)); repeat split;
      auto with lia.
  - cbv zeta. rewrite strToInt_loop_cons.
    destruct (next_digit base c) as [d|] eqn:Hd.
    2:{ cbn [fst]. destruct (Z.eqb_spec dig (-1)); repeat split;
          auto with lia. }
    rewrite (strlen_cons c buf (next_digit_not_NUL _ _ _ Hd)).
    destruct (_ || _); [cbn [fst]; repeat split; auto with lia|].
    destruct (if neg then _ else _); [cbn [fst]; repeat split; auto with lia|].
    destruct (IH (S pos) d (wrap T (wrap T (val * base) + d)))
      as (H1 & H2 & _).
    repeat split; [lia|destruct H2; auto with lia|].
    intros _ Hn. destruct H2; [contradiction|lia].
Qed.

Lemma parse_sign_strlen mn buf :
  (snd (parse_sign mn buf) + strlen (drop (snd (parse_sign mn buf)) buf)
   <= strlen buf)%nat.
Proof.
  unfold parse_sign. destruct (mn <? 0); [|simpl; rewrite ?drop_0; lia].
  destruct buf as [|c buf]; [simpl; rewrite ?drop_0; lia|]. cbn [peek andb].
  destruct (Ascii.eqb_spec c "+") as [->|_]; [simpl; now rewrite strlen_cons|].
  destruct (Ascii.eqb_spec c "-") as [->|_]; [simpl; now rewrite strlen_cons|].
  simpl. rewrite ?drop_0. lia.
Qed.

Lemma parse_base_strlen buf :
  (snd (parse_base buf) + strlen (drop (snd (parse_base buf)) buf)
   <= strlen buf)%nat.
Proof.
  unfold parse_base.
  destruct buf as [|c1 [|c2 buf]]; cbn [peek tail].
  - simpl. rewrite ?drop_0. lia.
  - destruct (Ascii.eqb c1 "0"); simpl; rewrite ?drop_0; lia.
  - destruct (Ascii.eqb_spec c1 "0") as [->|_]; [|simpl; rewrite ?drop_0; lia].
    cbn [andb].
    destruct (Ascii.eqb_spec c2 "b") as [->|_];
      [simpl; now rewrite !strlen_cons|].
    destruct (Ascii.eqb_spec c2 "o") as [->|_];
      [simpl; now rewrite !strlen_cons|].
    destruct (Ascii.eqb_spec c2 "x") as [->|_];
      [simpl; now rewrite !strlen_cons|].
    simpl. rewrite ?drop_0. lia.
Qed.

(** X5.  [strToInt] reads inside the string: the byte count it returns
    is at most the length of the string, and a count other than 0
    covers the sign, the base identifier and at least one digit. *)
Theorem strToInt_count_bounds T (buf : cstring) (mn mx : Z) :
  let n := fst (strToInt T buf mn mx) in
  let sign := snd (parse_sign mn buf) in
  let identifier := snd (parse_base (drop sign buf)) in
  (n <= strlen buf)%nat
  /\ (n <> 0%nat -> (sign + identifier < n)%nat).
Proof.
  cbv zeta. rewrite strToInt_eq. cbv zeta.
  pose proof (parse_sign_strlen mn buf) as Hs.
  destruct (parse_sign mn buf) as [neg sign]. cbn [fst snd] in *.
  pose proof (parse_base_strlen (drop sign buf)) as Hb.
  destruct (parse_base (drop sign buf)) as [base skip]. cbn [fst snd] in *.
  rewrite drop_drop in Hb.
  destruct (strToInt_loop_count T mn mx base neg (drop (sign + skip) buf)
              (sign + skip) (-1) 0) as (H1 & _ & H3).
  split; [lia|]. intros Hn. now apply H3.
Qed.

Lemma next_digit_hex_lower c : next_digit 16 (hex_lower c) = next_digit 16 c.
Proof. each_ascii c; vm_compute; reflexivity. Qed.

Lemma strToInt_loop_hex_lower T mn mx neg : forall buf pos dig val,
  strToInt_loop T mn mx 16 neg (map hex_lower buf) pos dig val
  = strToInt_loop T mn mx 16 neg buf pos dig val.
Proof.
  induction buf as [|c buf IH]; intros pos dig val; [reflexivity|].
  rewrite map_cons, !strToInt_loop_cons, next_digit_hex_lower.
  destruct (next_digit 16 c); [|reflexivity].
  destruct (_ || _); [reflexivity|].
  destruct (if neg then _ else _); [reflexivity|]. apply IH.
Qed.

(** X6.  Hex digits are read without regard to case, the base
    identifier is not: behind an optional sign and the identifier 0x, a
    numeral reads the same with its letters A-F put in lower case; and
    0X is no base identifier, so that such a token is read as the
    decimal 0 with one byte. *)
Theorem hex_digits_any_case T (sign ds : cstring) (mn mx : Z) :
  sign = [] \/ sign = ["+"%char] \/ sign = ["-"%char] ->
  strToInt T (sign ++ lit "0x" ++ map hex_lower ds) mn mx
  = strToInt T (sign ++ lit "0x" ++ ds) mn mx
  /\ strToInt_i64 (lit "0X" ++ ds) = (1%nat, 0)
  /\ strToInt_u64 (lit "0X" ++ ds) = (1%nat, 0).
Proof.
  intros Hsign. split; [|split; reflexivity].
  rewrite !strToInt_eq. unfold parse_sign.
  destruct Hsign as [->|[->| ->]]; destruct (mn <? 0);
    cbn [app lit list_ascii_of_string peek andb orb Ascii.eqb Bool.eqb
         fst snd drop parse_base tail];
    cbv zeta; cbn [fst snd Nat.add drop];
    first [apply strToInt_loop_hex_lower | reflexivity].
Qed.

(** ** parseString *)

Section ParseStringFurther.

Variable MAX_COMMAND_ARG_SIZE : nat.
Variable strtol : cstring -> Z -> Z * nat.

Lemma peek_strlen (b : cstring) :
  peek b <> NUL -> strlen b = S (strlen (tail b)).
Proof.
  destruct b as [|c b]; simpl; [congruence|]. apply strlen_cons.
Qed.

Lemma hex_step_not_NUL o c o' : hex_step o c = Some o' -> c <> NUL.
Proof. intros H ->. rewrite hex_step_spec in H. discriminate H. Qed.

(** The loop stores at most one byte per round and advances the cursor
    over bytes of the string only. *)
Lemma parseString_loop_bounds q : forall n buf rc out,
  match parseString_loop q n buf rc out with
  | Return0 o => (length o <= length out + n)%nat
  | LoopEnd b r o =>
    (length o <= length out + n)%nat
    /\ (r + strlen b = rc + strlen buf)%nat
  end.
Proof.
  induction n as [|n IH]; intros buf rc out; simpl; [split; lia|].
  destruct (Ascii.eqb_spec (peek buf) NUL) as [|H0]; [split; lia|].
  destruct (if q then _ else _); [split; lia|].
  pose proof (peek_strlen buf H0) as Hbuf.
  assert (Hstep : forall b' rc' c,
    match parseString_loop q n b' rc' (out ++ [c]) with
    | Return0 o => (length o <= length out + S n)%nat
    | LoopEnd b r o =>
      (length o <= length out + S n)%nat
      /\ (r + strlen b = rc' + strlen b')%nat
    end).
  { intros b' rc' c. specialize (IH b' rc' (out ++ [c])).
    destruct (parseString_loop q n b' rc' (out ++ [c]));
      rewrite length_app in IH; simpl in IH; [lia|split; lia]. }
  assert (Hesc : forall c,
    peek (tail buf) = c -> c <> NUL ->
    forall out',
      match parseString_loop q n (tail (tail buf)) (S (S rc)) (out ++ [out'])
      with
      | Return0 o => (length o <= length out + S n)%nat
      | LoopEnd b r o =>
        (length o <= length out + S n)%nat
        /\ (r + strlen b = rc + strlen buf)%nat
      end).
  { intros c Hc Hn out'. specialize (Hstep (tail (tail buf)) (S (S rc)) out').
    rewrite <- Hc in Hn. pose proof (peek_strlen _ Hn).
    destruct (parseString_loop q n _ _ _); [lia|split; lia]. }
  destruct (Ascii.eqb_spec (peek buf) BACKSLASH) as [_|_].
  2:{ specialize (Hstep (tail buf) (S rc) (peek buf)).
      destruct (parseString_loop q n _ _ _); [lia|split; lia]. }
  destruct (Ascii.eqb_spec (peek (tail buf)) "n") as [E|_];
    [now apply (Hesc _ E)|].
  destruct (Ascii.eqb_spec (peek (tail buf)) "r") as [E|_];
    [now apply (Hesc _ E)|].
  destruct (Ascii.eqb_spec (peek (tail buf)) "t") as [E|_];
    [now apply (Hesc _ E)|].
  destruct (Ascii.eqb_spec (peek (tail buf)) QUOTE) as [E|_];
    [now apply (Hesc _ E)|].
  destruct (Ascii.eqb_spec (peek (tail buf)) BACKSLASH) as [E|_];
    [now apply (Hesc _ E)|].
  destruct (Ascii.eqb_spec (peek (tail buf)) "x") as [E|_];
    [|lia].
  assert (Hx : peek (tail buf) <> NUL) by (rewrite E; discriminate).
  pose proof (peek_strlen _ Hx) as Hbuf1.
  destruct (hex_step NUL (peek (tail (tail buf)))) as [o1|] eqn:H1;
    [|rewrite length_app; simpl; lia].
  pose proof (peek_strlen _ (hex_step_not_NUL _ _ _ H1)) as Hbuf2.
  destruct (hex_step o1 (peek (tail (tail (tail buf))))) as [o2|] eqn:H2;
    [|rewrite length_app; simpl; lia].
  pose proof (peek_strlen _ (hex_step_not_NUL _ _ _ H2)) as Hbuf3.
  specialize (Hstep (tail (tail (tail (tail buf)))) (S (S (S (S rc)))) o2).
  destruct (parseString_loop q n _ _ _); [lia|split; lia].
Qed.

Lemma legacy_loop_output n : forall buf pos out b r o,
  Legacy.parseString_loop strtol n buf pos out = Some (b, r, o) ->
  (length o <= length out + n)%nat.
Proof.
  induction n as [|n IH]; intros buf pos out b r o; simpl.
  - intros [= _ _ <-]. lia.
  - assert (Hstep : forall b' p' c,
      Legacy.parseString_loop strtol n b' p' (out ++ [c]) = Some (b, r, o) ->
      (length o <= length out + S n)%nat).
    { intros b' p' c H. apply IH in H. rewrite length_app in H.
      simpl in H. lia. }
    destruct (_ || _); [intros [= _ _ <-]; lia|].
    destruct (Ascii.eqb (peek buf) BACKSLASH); [|apply Hstep].
    destruct (Ascii.eqb (peek (tail buf)) "n"); [apply Hstep|].
    destruct (Ascii.eqb (peek (tail buf)) "r"); [apply Hstep|].
    destruct (Ascii.eqb (peek (tail buf)) "t"); [apply Hstep|].
    destruct (Ascii.eqb (peek (tail buf)) QUOTE); [apply Hstep|].
    destruct (Ascii.eqb (peek (tail buf)) BACKSLASH); [apply Hstep|].
    destruct (Ascii.eqb (peek (tail buf)) "x"); [|discriminate].
    destruct (strtol _ 16) as [v read].
    destruct (_ || _); [discriminate|apply Hstep].
Qed.

(** X7.  [parseString] stays inside both buffers: it stores at most
    MAX_COMMAND_ARG_SIZE bytes in front of the terminator of the
    argument, whether it succeeds or fails, and the byte count it
    returns is at most the length of the input string; the earlier
    version stores at most MAX_COMMAND_ARG_SIZE bytes too. *)
Theorem parseString_stays_in_bounds (buf : cstring) :
  (length (snd (parseString MAX_COMMAND_ARG_SIZE buf))
   <= MAX_COMMAND_ARG_SIZE)%nat
  /\ (fst (parseString MAX_COMMAND_ARG_SIZE buf) <= strlen buf)%nat
  /\ forall r o,
       Legacy.parseString MAX_COMMAND_ARG_SIZE strtol buf = Some (r, o) ->
       (length o <= MAX_COMMAND_ARG_SIZE)%nat.
Proof.
  split; [|split].
  - unfold parseString.
    pose proof (parseString_loop_bounds (Ascii.eqb (peek buf) QUOTE)
      MAX_COMMAND_ARG_SIZE
      (drop (if Ascii.eqb (peek buf) QUOTE then 1 else 0)%nat buf)
      (if Ascii.eqb (peek buf) QUOTE then 1 else 0)%nat []) as H.
    destruct (parseString_loop _ _ _ _ _) as [o|b r o]; [exact H|].
    destruct H as [H _].
    destruct (Ascii.eqb (peek buf) QUOTE); [|exact H].
    destruct (negb _); exact H.
  - unfold parseString.
    destruct (Ascii.eqb_spec (peek buf) QUOTE) as [Hq|_].
    + assert (Hbuf : strlen buf = S (strlen (tail buf))).
      { apply peek_strlen. rewrite Hq. discriminate. }
      replace (drop 1 buf) with (tail buf) by now destruct buf.
      pose proof (parseString_loop_bounds true MAX_COMMAND_ARG_SIZE
        (tail buf) 1%nat []) as H.
      destruct (parseString_loop _ _ _ _ _) as [o|b r o]; [simpl; lia|].
      destruct (Ascii.eqb_spec (peek b) QUOTE) as [Hb|_]; [|simpl; lia].
      assert (strlen b = S (strlen (tail b))).
      { apply peek_strlen. rewrite Hb. discriminate. }
      simpl. lia.
    + rewrite drop_0.
      pose proof (parseString_loop_bounds false MAX_COMMAND_ARG_SIZE
        buf 0%nat []) as H.
      destruct (parseString_loop _ _ _ _ _) as [o|b r o]; simpl; lia.
  - intros r o. unfold Legacy.parseString.
    destruct (negb _); [discriminate|].
    destruct (Legacy.parseString_loop _ _ _ _ _) as [[[b r'] o']|] eqn:Hloop;
      [|discriminate].
    destruct (negb _); [discriminate|]. intros [= _ <-].
    apply legacy_loop_output in Hloop. simpl in Hloop. lia.
Qed.

End ParseStringFurther.

Section BareWords.

Variable MAX_COMMAND_ARG_SIZE : nat.
Variable strtol : cstring -> Z -> Z * nat.

(** One round of the loop on a well-formed piece of a bare word. *)
Lemma word_loop_piece n p rest rc out :
  word_piece p ->
  parseString_loop false (S n) (encode p ++ rest) rc out =
  parseString_loop false n rest (rc + length (encode p)) (out ++ [decode p]).
Proof.
  destruct p; simpl; intros Hp.
  - destruct Hp as (H0 & Hs & Hb).
    rewrite (eqb_false_of_neq _ _ H0), (eqb_false_of_neq _ _ Hs),
      (eqb_false_of_neq _ _ Hb).
    now rewrite Nat.add_1_r.
  - now replace (rc + 2)%nat with (S (S rc)) by lia.
  - now replace (rc + 2)%nat with (S (S rc)) by lia.
  - now replace (rc + 2)%nat with (S (S rc)) by lia.
  - now replace (rc + 2)%nat with (S (S rc)) by lia.
  - now replace (rc + 2)%nat with (S (S rc)) by lia.
  - destruct Hp as ([v1 H1] & [v2 H2]).
    destruct (hex_pair_decodes _ _ _ _ H1 H2) as (o & Ho1 & Ho2).
    rewrite Ho1, Ho2, H1, H2.
    now replace (rc + 4)%nat with (S (S (S (S rc)))) by lia.
Qed.

Lemma word_loop_pieces ps : forall n rest rc out,
  Forall word_piece ps -> (length ps <= n)%nat ->
  parseString_loop false n (encode_all ps ++ rest) rc out =
  parseString_loop false (n - length ps) rest
    (rc + length (encode_all ps)) (out ++ map decode ps).
Proof.
  induction ps as [|p ps IH]; intros n rest rc out Hps Hn.
  - simpl. now rewrite Nat.sub_0_r, Nat.add_0_r, app_nil_r.
  - apply Forall_cons in Hps as [Hp Hps].
    destruct n as [|n]; [simpl in Hn; lia|].
    unfold encode_all. simpl flat_map. rewrite <- app_assoc.
    rewrite word_loop_piece by assumption.
    fold (encode_all ps). rewrite IH by (simpl in Hn; auto with lia).
    simpl length. rewrite length_app, <- app_assoc. simpl.
    f_equal. lia.
Qed.

Lemma parseString_bare buf :
  peek buf <> QUOTE ->
  parseString MAX_COMMAND_ARG_SIZE buf =
  match parseString_loop false MAX_COMMAND_ARG_SIZE buf 0 [] with
  | Return0 output => (0%nat, output)
  | LoopEnd _ readCount output => (readCount, output)
  end.
Proof.
  intros H. unfold parseString. rewrite (eqb_false_of_neq _ _ H).
  now rewrite drop_0.
Qed.

Lemma encode_all_app ps1 ps2 :
  encode_all (ps1 ++ ps2) = encode_all ps1 ++ encode_all ps2.
Proof. unfold encode_all. apply flat_map_app. Qed.

(** X8.  A bare word is decoded like a quoted string.  For a text made
    of plain bytes (any byte but the terminator, the space and the
    backslash) and escape sequences that does not begin with a quote,
    fits in the argument size and stands in front of a space or of the
    terminator, [parseString] returns the length of the text and the
    decoded bytes, one per piece.  The earlier version rejects every
    text that does not begin with a quote. *)
Theorem bare_word_decodes (ps : list Piece) (rest : cstring) :
  Forall word_piece ps ->
  peek (encode_all ps ++ rest) <> QUOTE ->
  (length ps <= MAX_COMMAND_ARG_SIZE)%nat ->
  separator (peek rest) ->
  parseString MAX_COMMAND_ARG_SIZE (encode_all ps ++ rest)
  = (length (encode_all ps), map decode ps)
  /\ Legacy.parseString MAX_COMMAND_ARG_SIZE strtol (encode_all ps ++ rest)
     = None.
Proof.
  intros Hps Hq Hn Hsep. split.
  - rewrite parseString_bare by assumption.
    rewrite word_loop_pieces by assumption.
    destruct (MAX_COMMAND_ARG_SIZE - length ps)%nat; [reflexivity|].
    destruct rest as [|c rest]; [reflexivity|]. simpl in *.
    destruct Hsep as [-> | ->]; reflexivity.
  - unfold Legacy.parseString. now rewrite (eqb_false_of_neq _ _ Hq).
Qed.

(** X9.  A quoted string of more bytes than the argument size is
    rejected, in both versions: when the body holds more than
    MAX_COMMAND_ARG_SIZE well-formed pieces the parse fails, whatever
    follows the body. *)
Theorem over_long_quoted_string_fails (ps : list Piece) (rest : cstring) :
  (forall h1 h2 v1 v2,
     hex_digit_value h1 = Some v1 -> hex_digit_value h2 = Some v2 ->
     strtol [h1; h2] 16 = (16 * v1 + v2, 2%nat)) ->
  Forall quoted_piece ps ->
  (MAX_COMMAND_ARG_SIZE < length ps)%nat ->
  fst (parseString MAX_COMMAND_ARG_SIZE (QUOTE :: encode_all ps ++ rest))
  = 0%nat
  /\ Legacy.parseString MAX_COMMAND_ARG_SIZE strtol
       (QUOTE :: encode_all ps ++ rest) = None.
Proof.
  intros Hstrtol Hps Hn. split.
  - rewrite parseString_open_quote.
    destruct (parseString_loop_overrun ps MAX_COMMAND_ARG_SIZE rest 1%nat []
                Hps Hn) as (c & b & r & o & -> & Hq).
    simpl. now rewrite (eqb_false_of_neq _ _ Hq).
  - rewrite legacy_open_quote.
    destruct (legacy_loop_overrun strtol Hstrtol ps
                MAX_COMMAND_ARG_SIZE rest 1%nat [] Hps Hn)
      as (c & b & r & o & -> & Hq).
    simpl. now rewrite (eqb_false_of_neq _ _ Hq).
Qed.

(** X10.  A bare word of more bytes than the argument size is not
    rejected by [parseString] but cut: the argument holds the first
    MAX_COMMAND_ARG_SIZE decoded bytes, and the byte count covers the
    text of these bytes only, so that the cursor is left inside the
    word. *)
Theorem over_long_bare_word_is_cut (ps : list Piece) (rest : cstring) :
  Forall word_piece ps ->
  peek (encode_all ps ++ rest) <> QUOTE ->
  (MAX_COMMAND_ARG_SIZE < length ps)%nat ->
  parseString MAX_COMMAND_ARG_SIZE (encode_all ps ++ rest)
  = (length (encode_all (take MAX_COMMAND_ARG_SIZE ps)),
     map decode (take MAX_COMMAND_ARG_SIZE ps))
  /\ (length (encode_all (take MAX_COMMAND_ARG_SIZE ps))
      < length (encode_all ps))%nat.
Proof.
  intros Hps Hq Hn.
  assert (Hsplit : encode_all ps
                   = encode_all (take MAX_COMMAND_ARG_SIZE ps)
                     ++ encode_all (drop MAX_COMMAND_ARG_SIZE ps)).
  { now rewrite <- encode_all_app, take_drop. }
  split.
  - rewrite parseString_bare by assumption.
    rewrite Hsplit, <- app_assoc.
    rewrite word_loop_pieces
      by (auto using Forall_take; rewrite length_take; lia).
    rewrite length_take.
    replace (MAX_COMMAND_ARG_SIZE
             - MAX_COMMAND_ARG_SIZE `min` length ps)%nat with 0%nat by lia.
    reflexivity.
  - rewrite Hsplit at 1. rewrite length_app.
    destruct (drop MAX_COMMAND_ARG_SIZE ps) as [|p ps'] eqn:Hdrop.
    + apply (f_equal length) in Hdrop. rewrite length_drop in Hdrop.
      simpl in Hdrop. lia.
    + unfold encode_all at 3. simpl flat_map. rewrite length_app.
      destruct p; simpl; lia.
Qed.

(** X11.  [parseString] reads a token that is followed by a space or
    by the terminator, and that it accepts completely when it stands
    alone, exactly as it reads the token alone. *)
Theorem parseString_stops_at_separator (tok rest out : cstring) :
  separator (peek rest) -> tok <> [] ->
  parseString MAX_COMMAND_ARG_SIZE tok = (length tok, out) ->
  parseString MAX_COMMAND_ARG_SIZE (tok ++ rest) = (length tok, out).
Proof. apply parseString_app. Qed.

End BareWords.

(** ** The registry and the lookup *)

Section RegistryFurther.

Variable MAX_COMMANDS : nat.
Variable MAX_COMMAND_ARGS : nat.
Variable MAX_COMMAND_NAME_LENGTH : nat.
Variable double : Type.
Variable World : Type.

Implicit Types (st : State double World) (def : Command double World).

Lemma lookup_command_app (defs : list (Command double World)) def name' :
  lookup_command (defs ++ [def]) name' =
  match lookup_command defs name' with
  | Some d => Some d
  | None => if strcmp_eq (name def) name' then Some def else None
  end.
Proof.
  induction defs as [|d defs IH]; simpl; [reflexivity|].
  now destruct (strcmp_eq (name d) name').
Qed.

Lemma lookup_command_prefix (defs more : list (Command double World))
    name' d :
  lookup_command defs name' = Some d ->
  lookup_command (defs ++ more) name' = Some d.
Proof.
  induction defs as [|d0 defs IH]; simpl; [discriminate|].
  now destruct (strcmp_eq (name d0) name').
Qed.

Lemma strcmp_eq_c_str a b : strcmp_eq (c_str a) b = strcmp_eq a b.
Proof. unfold strcmp_eq. now rewrite c_str_idemp. Qed.

(** What a call of [registerCommand] does to the stored definitions. *)
Lemma registerCommand_stored st name argTypes callback :
  (numCommands st <= MAX_COMMANDS)%nat ->
  length (commandDefinitions st) = MAX_COMMANDS ->
  let r := registerCommand MAX_COMMANDS MAX_COMMAND_ARGS
             MAX_COMMAND_NAME_LENGTH st name argTypes callback in
  (fst r = false /\ snd r = st)
  \/ (fst r = true
      /\ (strlen name <= MAX_COMMAND_NAME_LENGTH)%nat
      /\ commandArgs (snd r) = commandArgs st
      /\ stored (snd r)
         = stored st ++ [mkCommand (c_str name) (c_str argTypes) callback]).
Proof.
  intros Hle Hlen. unfold registerCommand.
  destruct (Nat.eqb_spec (numCommands st) MAX_COMMANDS) as [Hn|Hn];
    [now left|].
  destruct (Nat.ltb_spec MAX_COMMAND_NAME_LENGTH (strlen name)) as [Hname|Hname];
    [now left|].
  destruct (Nat.ltb_spec MAX_COMMAND_ARGS (strlen argTypes)) as [Hargs|Hargs];
    [now left|].
  destruct callback as [f|]; [|now left].
  destruct (argTypes_ok argTypes) eqn:Hok; simpl negb; cbv iota;
    [|now left].
  right. rewrite !strlcpy_fits by assumption. cbn [fst snd].
  repeat split; [lia|].
  unfold stored at 1. cbn [numCommands commandDefinitions].
  apply stored_append. lia.
Qed.

(** X13.  Registering and looking up.  After a successful
    [registerCommand], the lookup of a name yields what it yielded
    before, and where it found nothing before it now finds the new
    definition if the name is the registered one: a new command is
    found under its name unless an older command has that name. *)
Theorem lookup_after_registerCommand st st' name argTypes callback name' :
  (numCommands st <= MAX_COMMANDS)%nat ->
  length (commandDefinitions st) = MAX_COMMANDS ->
  registerCommand MAX_COMMANDS MAX_COMMAND_ARGS MAX_COMMAND_NAME_LENGTH
    st name argTypes callback = (true, st') ->
  lookup_command (stored st') name' =
  match lookup_command (stored st) name' with
  | Some def => Some def
  | None =>
    if strcmp_eq name name'
    then Some (mkCommand (c_str name) (c_str argTypes) callback)
    else None
  end.
Proof.
  intros Hle Hlen Hreg.
  destruct (registerCommand_stored st name argTypes callback Hle Hlen)
    as [[Hf _]|(_ & _ & _ & Hst)]; rewrite Hreg in *; [discriminate Hf|].
  cbn [snd] in Hst. rewrite Hst, lookup_command_app. simpl.
  now rewrite strcmp_eq_c_str.
Qed.

End RegistryFurther.

(** ** processCommand *)

Section ProcessCommandFurther.

Variable MAX_COMMANDS : nat.
Variable MAX_COMMAND_ARGS : nat.
Variable MAX_COMMAND_NAME_LENGTH : nat.
Variable MAX_COMMAND_ARG_SIZE : nat.
Variable MAX_RESPONSE_SIZE : nat.
Variable double : Type.
Variable strtod : cstring -> double * nat.
Variable World : Type.

Implicit Types (st : State double World) (def : Command double World).
Implicit Types (args : list (Argument double)).

(** The argument loop writes the cells of its arguments only. *)
Lemma parse_args_cells argTypes : forall i command args j,
  (j < i \/ i + strlen argTypes <= j)%nat ->
  snd (parse_args MAX_COMMAND_ARG_SIZE strtod argTypes i command args) !! j
  = args !! j.
Proof.
  induction argTypes as [|t argTypes IH]; intros i command args j Hj;
    [reflexivity|].
  cbn [parse_args].
  destruct (Ascii.eqb_spec t NUL) as [|Ht]; [reflexivity|].
  rewrite (strlen_cons t argTypes Ht) in Hj.
  destruct (negb (Ascii.eqb (peek command) SPACE)); [reflexivity|].
  assert (Hrec : forall a command',
    snd (parse_args MAX_COMMAND_ARG_SIZE strtod argTypes (S i) command'
           (<[i := a]> args)) !! j = args !! j).
  { intros a command'. rewrite IH by lia.
    apply list_lookup_insert_ne. lia. }
  assert (Hins : forall a, <[i := a]> args !! j = args !! j).
  { intros a. apply list_lookup_insert_ne. lia. }
  destruct (Ascii.eqb t "d").
  { destruct (strtod _) as [d after].
    destruct (_ || _); [apply Hins|apply Hrec]. }
  destruct (Ascii.eqb t "u").
  { destruct (strToInt _ _ _ _) as [bytesRead v].
    destruct (_ || _); [apply Hins|apply Hrec]. }
  destruct (Ascii.eqb t "i").
  { destruct (strToInt _ _ _ _) as [bytesRead v].
    destruct (_ || _); [apply Hins|apply Hrec]. }
  destruct (Ascii.eqb t "s"); [|reflexivity].
  destruct (parseString _ _) as [readCount output].
  destruct (Nat.eqb _ _); [apply Hins|apply Hrec].
Qed.

(** X12.  A failing [processCommand] call writes no cell of the
    argument array at or behind the arity of the command that it found
    (and no cell at all when it found none). *)
Theorem failing_call_keeps_other_cells st command response w (j : nat) :
  let '(ok, st', _, _) :=
    processCommand MAX_COMMAND_NAME_LENGTH MAX_COMMAND_ARG_SIZE
      MAX_RESPONSE_SIZE strtod st command response w in
  ok = false ->
  (forall def,
     lookup_command (stored st)
       (fst (read_name MAX_COMMAND_NAME_LENGTH command)) = Some def ->
     (strlen (argTypes def) <= j)%nat) ->
  commandArgs st' !! j = commandArgs st !! j.
Proof.
  unfold processCommand, stored.
  destruct (read_name _ _) as [name' cmd]. cbn [fst].
  destruct (lookup_command _ _) as [def|]; [|reflexivity].
  pose proof (parse_args_cells (argTypes def) 0 cmd (commandArgs st) j) as Hc.
  destruct (parse_args _ _ _ _ _ _) as [[msg|cmd'] args]; cbn [snd] in Hc.
  { intros _ Hj. apply Hc. right. specialize (Hj def eq_refl). lia. }
  destruct (negb _).
  { intros _ Hj. apply Hc. right. specialize (Hj def eq_refl). lia. }
  destruct (callback def) as [f|]; [|discriminate].
  destruct (f args [] w) as [[args' resp'] w']. discriminate.
Qed.

(** The name loop takes the name token, up to the bound. *)
Lemma read_name_token n : forall command,
  fst (read_name n command) = take n (name_token command).
Proof.
  induction n as [|n IH]; intros command.
  - rewrite take_0. now destruct command.
  - destruct command as [|c command]; [reflexivity|]. simpl.
    destruct (Ascii.eqb c SPACE || Ascii.eqb c NUL); [reflexivity|].
    specialize (IH command). destruct (read_name n command) as [nm rest].
    simpl in *. now rewrite IH.
Qed.

(** X15.  A line whose name is not registered.  When no stored command
    has the name token of the line (cut to MAX_COMMAND_NAME_LENGTH
    bytes), [processCommand] returns false, changes nothing of the
    state, invokes no handler and reports the unknown command name with
    that name; the message is complete when the response size exceeds
    34 + MAX_COMMAND_NAME_LENGTH. *)
Theorem unknown_command_name_reported st command response w :
  let name' := take MAX_COMMAND_NAME_LENGTH (name_token command) in
  let msg := lit "parse error: unknown command name " ++ name' in
  lookup_command (stored st) name' = None ->
  processCommand MAX_COMMAND_NAME_LENGTH MAX_COMMAND_ARG_SIZE
    MAX_RESPONSE_SIZE strtod st command response w
  = (false, st, snprintf response MAX_RESPONSE_SIZE msg, w)
  /\ ((34 + MAX_COMMAND_NAME_LENGTH < MAX_RESPONSE_SIZE)%nat ->
      snprintf response MAX_RESPONSE_SIZE msg = msg).
Proof.
  intros name' msg Hnone. split.
  - unfold processCommand.
    pose proof (read_name_token MAX_COMMAND_NAME_LENGTH command) as Hname.
    destruct (read_name _ _) as [nm cmd]. cbn [fst] in Hname. subst nm.
    fold (stored st). fold name'. now rewrite Hnone.
  - intros Hsize. unfold snprintf.
    destruct MAX_RESPONSE_SIZE as [|n]; [lia|].
    apply take_ge. unfold msg, name'.
    rewrite length_app, length_take. simpl. lia.
Qed.

Lemma snprintf_bound response size msg :
  (size = 0%nat /\ snprintf response size msg = response)
  \/ (length (snprintf response size msg) < size)%nat.
Proof.
  destruct size as [|n]; [now left|right]. simpl.
  rewrite length_take. lia.
Qed.

(** X18.  The error message never overruns the response buffer: the
    response of a failing call is shorter than MAX_RESPONSE_SIZE, so
    that it fits with its terminator; with a response size of 0 the
    buffer is left as it was. *)
Theorem error_fits_response_buffer st command response w :
  let '(ok, _, response', _) :=
    processCommand MAX_COMMAND_NAME_LENGTH MAX_COMMAND_ARG_SIZE
      MAX_RESPONSE_SIZE strtod st command response w in
  ok = false ->
  (MAX_RESPONSE_SIZE = 0%nat /\ response' = response)
  \/ (length response' < MAX_RESPONSE_SIZE)%nat.
Proof.
  unfold processCommand.
  destruct (read_name _ _) as [name' cmd].
  destruct (lookup_command _ _) as [def|];
    [|intros _; apply snprintf_bound].
  destruct (parse_args _ _ _ _ _ _) as [[msg|cmd'] args];
    [intros _; apply snprintf_bound|].
  destruct (negb _); [intros _; apply snprintf_bound|].
  destruct (callback def) as [f|]; [|discriminate].
  destruct (f args [] w) as [[args' resp'] w']. discriminate.
Qed.

(** The registry only grows. *)
Lemma later_stored st st' :
  later MAX_COMMANDS MAX_COMMAND_ARGS MAX_COMMAND_NAME_LENGTH
    MAX_COMMAND_ARG_SIZE MAX_RESPONSE_SIZE strtod st st' ->
  registry_ok MAX_COMMANDS MAX_COMMAND_ARGS MAX_COMMAND_NAME_LENGTH st ->
  registry_ok MAX_COMMANDS MAX_COMMAND_ARGS MAX_COMMAND_NAME_LENGTH st'
  /\ stored st `prefix_of` stored st'.
Proof.
  intros Hlater Hok.
  induction Hlater as [|st' name argTypes callback _ [IHok IHpre]
                       |st' command response w _ [IHok IHpre]].
  - split; [assumption|reflexivity].
  - split; [now apply registerCommand_registry_ok|].
    destruct IHok as (Hle & Hlen & _).
    destruct (registerCommand_stored MAX_COMMANDS MAX_COMMAND_ARGS
                MAX_COMMAND_NAME_LENGTH double World st' name argTypes
                callback Hle Hlen) as [[_ ->]|(_ & _ & _ & ->)];
      [assumption|].
    etransitivity; [exact IHpre|]. now apply prefix_app_r.
  - destruct (processCommand_registry MAX_COMMAND_NAME_LENGTH
                MAX_COMMAND_ARG_SIZE MAX_RESPONSE_SIZE double strtod World
                st' command response w) as [Hd Hn].
    destruct IHok as (Hle & Hlen & Hall).
    unfold registry_ok, stored in *. rewrite Hd, Hn. auto.
Qed.

(** X14.  Nothing is ever unregistered or replaced.  From a
    well-formed registry, after any further sequence of
    [registerCommand] and [processCommand] calls the stored definitions
    begin with the definitions stored before, and every name that was
    found before is found with the same definition. *)
Theorem registry_only_grows st st' :
  registry_ok MAX_COMMANDS MAX_COMMAND_ARGS MAX_COMMAND_NAME_LENGTH st ->
  later MAX_COMMANDS MAX_COMMAND_ARGS MAX_COMMAND_NAME_LENGTH
    MAX_COMMAND_ARG_SIZE MAX_RESPONSE_SIZE strtod st st' ->
  stored st `prefix_of` stored st'
  /\ forall name' def,
       lookup_command (stored st) name' = Some def ->
       lookup_command (stored st') name' = Some def.
Proof.
  intros Hok Hlater.
  destruct (later_stored st st' Hlater Hok) as [_ Hpre].
  split; [exact Hpre|]. intros name' def Hfound.
  destruct Hpre as [more ->]. now apply lookup_command_prefix.
Qed.

(** The argument loop on the text of valid tokens for the first
    argument types: it goes on with the other types behind the tokens. *)
Lemma parse_args_tokens_then types1 types2 :
  forall (items : list (nat * cstring * Argument double)) i rest args,
    Forall2 (fun t item =>
               token_for MAX_COMMAND_ARG_SIZE strtod t (snd (fst item))
                 (snd item)) types1 items ->
    separator (peek rest) ->
    (i + length items <= length args)%nat ->
    parse_args MAX_COMMAND_ARG_SIZE strtod (types1 ++ types2) i
      (arguments_text (map fst items) ++ rest) args
    = parse_args MAX_COMMAND_ARG_SIZE strtod types2 (i + length items) rest
        (take i args ++ map snd items ++ drop (i + length items) args).
Proof.
  induction types1 as [|t types1 IH];
    intros items i rest args Hall Hsep Hlen.
  - apply Forall2_nil_inv_l in Hall as ->. simpl.
    now rewrite Nat.add_0_r, take_drop.
  - apply Forall2_cons_inv_l in Hall as ([[n tok] a] & items' & Ht & Hall & ->).
    simpl in Ht. rewrite map_cons. simpl fst at 1.
    rewrite arguments_text_cons. rewrite <- app_comm_cons.
    rewrite (parse_args_token MAX_COMMAND_ARG_SIZE double strtod t n tok a)
      by (assumption || now apply separator_arguments).
    simpl in Hlen.
    rewrite IH by (rewrite ?length_insert; auto; lia).
    rewrite (take_S_r _ _ a) by (apply list_lookup_insert_eq; lia).
    rewrite take_insert_ge by lia.
    rewrite drop_insert_lt by lia.
    rewrite <- app_assoc. simpl.
    now replace (i + S (length items'))%nat with (S (i + length items'))
      by lia.
Qed.

(** The name and the lookup for a line that begins with the name of a
    stored command that is the first under its name. *)
Lemma found_command st k def rest :
  registry_ok MAX_COMMANDS MAX_COMMAND_ARGS MAX_COMMAND_NAME_LENGTH st ->
  stored st !! k = Some def ->
  (forall j d, (j < k)%nat -> stored st !! j = Some d -> name d <> name def) ->
  SPACE ∉ name def ->
  separator (peek rest) ->
  read_name MAX_COMMAND_NAME_LENGTH (name def ++ rest) = (name def, rest)
  /\ lookup_command (take (numCommands st) (commandDefinitions st)) (name def)
     = Some def
  /\ command_ok MAX_COMMAND_ARGS MAX_COMMAND_NAME_LENGTH def.
Proof.
  intros (Hle & Hlen & Hall) Hk Hfirst Hspace Hsep.
  assert (Hdef : command_ok MAX_COMMAND_ARGS MAX_COMMAND_NAME_LENGTH def).
  { rewrite Forall_forall in Hall. apply Hall.
    now apply list_elem_of_lookup_2 in Hk. }
  split; [|split; [|exact Hdef]].
  - destruct Hdef as (Hname & Hnul & _). now apply read_name_exact.
  - fold (stored st). apply (lookup_command_first double World _ k); auto.
    eapply Forall_impl; [exact Hall|]. now intros d (_ & H & _).
Qed.

(** X16.  A line with too few arguments.  For a stored command that is
    the first under its name, with a name without space, and a line made
    of the name and valid tokens for the first argument types only,
    ending behind the last token: [processCommand] returns false without
    invoking a handler and reports the missing whitespace before the
    first argument that is not there; the cells of the arguments that
    were read hold their values. *)
Theorem missing_argument_reported st k def types1 t types2
    (items : list (nat * cstring * Argument double)) response w :
  registry_ok MAX_COMMANDS MAX_COMMAND_ARGS MAX_COMMAND_NAME_LENGTH st ->
  length (commandArgs st) = MAX_COMMAND_ARGS ->
  stored st !! k = Some def ->
  (forall j d, (j < k)%nat -> stored st !! j = Some d -> name d <> name def) ->
  SPACE ∉ name def ->
  argTypes def = types1 ++ t :: types2 ->
  Forall2 (fun t item =>
             token_for MAX_COMMAND_ARG_SIZE strtod t (snd (fst item))
               (snd item)) types1 items ->
  processCommand MAX_COMMAND_NAME_LENGTH MAX_COMMAND_ARG_SIZE
    MAX_RESPONSE_SIZE strtod st
    (command_line (name def) (map fst items) 0) response w
  = (false,
     {| commandArgs := map snd items ++ drop (length items) (commandArgs st);
        commandDefinitions := commandDefinitions st;
        numCommands := numCommands st |},
     snprintf response MAX_RESPONSE_SIZE
       (lit "parse error: missing whitespace before arg "
        ++ fmt_d (length items + 1)), w).
Proof.
  intros Hok Hargs Hk Hfirst Hspace Htypes Htok.
  assert (Hsep : separator (peek (arguments_text (map fst items) ++ []))).
  { apply separator_arguments. now right. }
  destruct (found_command st k def _ Hok Hk Hfirst Hspace Hsep)
    as (Hread & Hlookup & (_ & _ & Harity & Hall & _)).
  unfold processCommand, command_line. cbn [replicate].
  rewrite Hread, Hlookup, Htypes.
  pose proof (Forall2_length _ _ _ Htok) as Hitems.
  rewrite Htypes, length_app in Harity. simpl in Harity.
  rewrite (parse_args_tokens_then types1 (t :: types2) items 0)
    by (auto; try (now right); lia).
  assert (Ht : t <> NUL).
  { rewrite Htypes in Hall. apply Forall_app in Hall as [_ Hall].
    apply Forall_cons in Hall as [Ht _]. unfold arg_type in Ht.
    intros ->. decompose [or] Ht; discriminate. }
  cbn [parse_args]. rewrite (eqb_false_of_neq _ _ Ht).
  cbn [peek]. change (negb (Ascii.eqb NUL SPACE)) with true. cbv iota.
  reflexivity.
Qed.

(** X17.  A line with too much on it.  For a stored command that is
    the first under its name, with a name without space, and a line made
    of the name, a valid token for each argument type, one or more
    spaces and then any further text: [processCommand] returns false
    without invoking a handler and reports too many args with the arity
    of the command. *)
Theorem extra_text_reported st k def
    (items : list (nat * cstring * Argument double)) n extra response w :
  registry_ok MAX_COMMANDS MAX_COMMAND_ARGS MAX_COMMAND_NAME_LENGTH st ->
  length (commandArgs st) = MAX_COMMAND_ARGS ->
  stored st !! k = Some def ->
  (forall j d, (j < k)%nat -> stored st !! j = Some d -> name d <> name def) ->
  SPACE ∉ name def ->
  Forall2 (fun t item =>
             token_for MAX_COMMAND_ARG_SIZE strtod t (snd (fst item))
               (snd item)) (argTypes def) items ->
  peek extra <> SPACE -> peek extra <> NUL ->
  processCommand MAX_COMMAND_NAME_LENGTH MAX_COMMAND_ARG_SIZE
    MAX_RESPONSE_SIZE strtod st
    (command_line (name def) (map fst items) (S n) ++ extra) response w
  = (false,
     {| commandArgs := map snd items ++ drop (length items) (commandArgs st);
        commandDefinitions := commandDefinitions st;
        numCommands := numCommands st |},
     snprintf response MAX_RESPONSE_SIZE
       (lit "parse error: too many args (expected "
        ++ fmt_d (strlen (argTypes def)) ++ lit ")"), w).
Proof.
  intros Hok Hargs Hk Hfirst Hspace Htok Hs H0.
  unfold command_line. rewrite <- !app_assoc.
  assert (Hsep : separator (peek (replicate (S n) SPACE ++ extra)))
    by now left.
  destruct (found_command st k def _ Hok Hk Hfirst Hspace
              (separator_arguments (map fst items) _ Hsep))
    as (Hread & Hlookup & (_ & _ & Harity & _)).
  unfold processCommand. rewrite Hread, Hlookup.
  pose proof (Forall2_length _ _ _ Htok) as Hitems.
  rewrite (parse_args_tokens MAX_COMMAND_ARG_SIZE double strtod
             (argTypes def) items 0) by (auto; lia).
  rewrite skip_spaces_replicate by assumption.
  rewrite (eqb_false_of_neq _ _ H0). reflexivity.
Qed.

Lemma lookup_command_c_str (defs : list (Command double World)) name' :
  lookup_command defs (c_str name') = lookup_command defs name'.
Proof.
  induction defs as [|d defs IH]; simpl; [reflexivity|].
  unfold strcmp_eq. now rewrite c_str_idemp, IH.
Qed.

Lemma strcmp_eq_refl a : strcmp_eq a a = true.
Proof. unfold strcmp_eq. now rewrite decide_True. Qed.

(** X19.  Registering and then processing.  When [registerCommand]
    succeeds in a well-formed registry for a name without space that no
    stored command has, then every line made of that name followed by,
    for each character of argTypes in order, one or more spaces and a
    token valid for the type, and then any number of spaces, makes
    [processCommand] call the registered handler once, on the values of
    the tokens and on the empty response, and return true. *)
Theorem registered_command_is_reached st st' name argTypes f
    (items : list (nat * cstring * Argument double)) trailing response w :
  registry_ok MAX_COMMANDS MAX_COMMAND_ARGS MAX_COMMAND_NAME_LENGTH st ->
  length (commandArgs st) = MAX_COMMAND_ARGS ->
  registerCommand MAX_COMMANDS MAX_COMMAND_ARGS MAX_COMMAND_NAME_LENGTH
    st name argTypes (Some f) = (true, st') ->
  lookup_command (stored st) name = None ->
  SPACE ∉ c_str name ->
  Forall2 (fun t item =>
             token_for MAX_COMMAND_ARG_SIZE strtod t (snd (fst item))
               (snd item)) (c_str argTypes) items ->
  processCommand MAX_COMMAND_NAME_LENGTH MAX_COMMAND_ARG_SIZE
    MAX_RESPONSE_SIZE strtod st'
    (command_line (c_str name) (map fst items) trailing) response w
  = let args := map snd items ++ drop (length items) (commandArgs st) in
    let '(args', response', w') := f args [] w in
    (true,
     {| commandArgs := args';
        commandDefinitions := commandDefinitions st';
        numCommands := numCommands st' |},
     response', w').
Proof.
  intros Hok Hargs Hreg Hnone Hspace Htok.
  pose proof (registerCommand_registry_ok MAX_COMMANDS MAX_COMMAND_ARGS
                MAX_COMMAND_NAME_LENGTH double World st name argTypes
                (Some f) Hok) as Hok'.
  destruct Hok as (Hle & Hlen & _).
  destruct (registerCommand_stored MAX_COMMANDS MAX_COMMAND_ARGS
              MAX_COMMAND_NAME_LENGTH double World st name argTypes (Some f)
              Hle Hlen) as [[Hf _]|(_ & Hname & Hargs' & Hst)];
    rewrite Hreg in *; [discriminate Hf|].
  cbn [snd] in *.
  destruct Hok' as (_ & _ & Hall).
  assert (Harity : (length (c_str argTypes) <= MAX_COMMAND_ARGS)%nat).
  { rewrite Hst in Hall. apply Forall_app in Hall as [_ Hall].
    apply Forall_inv in Hall. now destruct Hall as (_ & _ & H & _). }
  assert (Hsep : separator (peek (replicate trailing SPACE))).
  { destruct trailing; [now right|now left]. }
  unfold processCommand, command_line.
  rewrite read_name_exact
    by (auto using separator_arguments, c_str_no_NUL).
  fold (stored st'). rewrite Hst, lookup_command_app.
  rewrite lookup_command_c_str, Hnone. simpl.
  rewrite strcmp_eq_refl.
  pose proof (Forall2_length _ _ _ Htok) as Hitems.
  rewrite Hargs'.
  rewrite (parse_args_tokens MAX_COMMAND_ARG_SIZE double strtod
             (c_str argTypes) items 0) by (auto; lia).
  rewrite skip_spaces_trailing. simpl.
  now destruct (f _ [] w) as [[args' response'] w'].
Qed.

End ProcessCommandFurther.

(** ** The further statements at concrete inputs *)

Ltac int_token :=
  split; [discriminate|]; right; right; left;
  (split; [reflexivity|]); eexists;
  (split; [reflexivity|]); vm_compute; reflexivity.

Lemma Demo_parser0_ok :
  registry_ok Demo.MAX_COMMANDS Demo.MAX_COMMAND_ARGS
    Demo.MAX_COMMAND_NAME_LENGTH Demo.parser0.
Proof.
  split; [vm_compute; lia|]. split; [reflexivity|]. constructor.
Qed.

Lemma strToInt_u64_exact_witness :
  snd (strToInt_u64 (lit "0x1F")) = 31.
Proof.
  destruct (strToInt_u64_exact (lit "0x1F")) as [H _].
  - vm_compute. discriminate.
  - rewrite H. reflexivity.
Defined.

Lemma strToInt_i64_exact_witness :
  snd (strToInt_i64 (lit "+0b101")) = 5.
Proof.
  destruct (strToInt_i64_exact (lit "+0b101")) as [H _].
  - vm_compute. discriminate.
  - vm_compute. discriminate.
  - rewrite H. reflexivity.
Defined.

Lemma strToInt_i64_minus_sign_witness :
  snd (strToInt_i64 (lit "-9223372036854775808")) = -9223372036854775808.
Proof.
  destruct (strToInt_i64_minus_sign (lit "9223372036854775808"))
    as (_ & _ & H).
  - vm_compute. discriminate.
  - apply H. vm_compute. discriminate.
Defined.

Lemma strToInt_stops_at_separator_witness :
  strToInt_i64 (lit "45 -23") = strToInt_i64 (lit "45").
Proof.
  apply (strToInt_stops_at_separator Int64 (lit "45") (lit " -23")).
  left. reflexivity.
Defined.

Lemma strToInt_count_bounds_witness :
  (3 < fst (strToInt_i64 (lit "-0x1F")))%nat.
Proof.
  apply (proj2 (strToInt_count_bounds Int64 (lit "-0x1F") INT64_MIN
                  INT64_MAX)).
  vm_compute. discriminate.
Defined.

Lemma hex_digits_any_case_witness :
  strToInt_i64 (lit "-0x1f") = strToInt_i64 (lit "-0x1F").
Proof.
  apply (proj1 (hex_digits_any_case Int64 ["-"%char] (lit "1F") INT64_MIN
                  INT64_MAX (or_intror (or_intror eq_refl)))).
Defined.

Lemma parseString_stays_in_bounds_witness :
  (fst (parseString Demo.MAX_COMMAND_ARG_SIZE (lit "hello world"))
   <= strlen (lit "hello world"))%nat.
Proof.
  apply (proj1 (proj2 (parseString_stays_in_bounds Demo.MAX_COMMAND_ARG_SIZE
                         Demo.strtol (lit "hello world")))).
Defined.

Lemma bare_word_decodes_witness :
  parseString Demo.MAX_COMMAND_ARG_SIZE (lit "yes no") = (3%nat, lit "yes").
Proof.
  apply (proj1 (bare_word_decodes Demo.MAX_COMMAND_ARG_SIZE Demo.strtol
                  [Plain "y"; Plain "e"; Plain "s"] (lit " no")
                  ltac:(repeat constructor; discriminate)
                  ltac:(discriminate)
                  ltac:(vm_compute; lia)
                  (or_introl eq_refl))).
Defined.

Lemma over_long_quoted_string_fails_witness :
  fst (parseString 2 (QUOTE :: lit "abc" ++ [QUOTE])) = 0%nat.
Proof.
  apply (proj1 (over_long_quoted_string_fails 2 Demo.strtol
                  [Plain "a"; Plain "b"; Plain "c"] [QUOTE]
                  Demo_strtol_hex_pair
                  ltac:(repeat constructor; discriminate)
                  ltac:(simpl; lia))).
Defined.

Lemma over_long_bare_word_is_cut_witness :
  parseString 2 (lit "abc") = (2%nat, lit "ab").
Proof.
  apply (proj1 (over_long_bare_word_is_cut 2
                  [Plain "a"; Plain "b"; Plain "c"] []
                  ltac:(repeat constructor; discriminate)
                  ltac:(discriminate)
                  ltac:(simpl; lia))).
Defined.

Lemma parseString_stops_at_separator_witness :
  parseString Demo.MAX_COMMAND_ARG_SIZE (lit "yes no") = (3%nat, lit "yes").
Proof.
  apply (parseString_stops_at_separator Demo.MAX_COMMAND_ARG_SIZE
           (lit "yes") (lit " no") (lit "yes")).
  - left. reflexivity.
  - discriminate.
  - reflexivity.
Defined.

Lemma failing_call_keeps_other_cells_witness :
  commandArgs (snd (fst (fst
    (Demo.processCommand Demo.parser1 (lit "move 45 abc") [] [])))) !! 2%nat
  = commandArgs Demo.parser1 !! 2%nat.
Proof.
  pose proof (failing_call_keeps_other_cells Demo.MAX_COMMAND_NAME_LENGTH
    Demo.MAX_COMMAND_ARG_SIZE Demo.MAX_RESPONSE_SIZE unit Demo.strtod
    Demo.World Demo.parser1 (lit "move 45 abc") [] [] 2%nat) as H.
  unfold Demo.processCommand.
  destruct (processCommand _ _ _ _ _ _ _ _) as [[[ok st'] response'] w']
    eqn:E.
  cbn [fst snd]. apply H.
  - vm_compute in E. now injection E as <- _ _ _.
  - intros def Hdef. vm_compute in Hdef. injection Hdef as <-.
    vm_compute. lia.
Defined.

Lemma lookup_after_registerCommand_witness :
  lookup_command (stored Demo.parser1) (lit "move")
  = Some (mkCommand (lit "move") (lit "ii") (Some Demo.handler)).
Proof.
  rewrite (lookup_after_registerCommand Demo.MAX_COMMANDS
             Demo.MAX_COMMAND_ARGS Demo.MAX_COMMAND_NAME_LENGTH unit
             Demo.World Demo.parser0 Demo.parser1 (lit "move") (lit "ii")
             (Some Demo.handler) (lit "move")).
  - reflexivity.
  - vm_compute. lia.
  - reflexivity.
  - reflexivity.
Defined.

Lemma registry_only_grows_witness :
  stored Demo.parser1 `prefix_of` stored Demo.parser2.
Proof.
  apply (proj1 (registry_only_grows Demo.MAX_COMMANDS Demo.MAX_COMMAND_ARGS
                  Demo.MAX_COMMAND_NAME_LENGTH Demo.MAX_COMMAND_ARG_SIZE
                  Demo.MAX_RESPONSE_SIZE unit Demo.strtod Demo.World
                  Demo.parser1 Demo.parser2 Demo_parser1_ok
                  (later_registerCommand _ _ _ _ _ _ Demo.strtod _
                     Demo.parser1 Demo.parser1 (lit "abcdefghij") (lit "")
                     (Some Demo.handler)
                     (later_now _ _ _ _ _ _ Demo.strtod _ Demo.parser1)))).
Defined.

Lemma unknown_command_name_reported_witness :
  Demo.processCommand Demo.parser1 (lit "invalid") [] []
  = (false, Demo.parser1, lit "parse error: unknown command name invalid",
     []).
Proof.
  destruct (unknown_command_name_reported Demo.MAX_COMMAND_NAME_LENGTH
    Demo.MAX_COMMAND_ARG_SIZE Demo.MAX_RESPONSE_SIZE unit Demo.strtod
    Demo.World Demo.parser1 (lit "invalid") [] [] eq_refl) as [H Hfull].
  unfold Demo.processCommand. rewrite H, Hfull; [reflexivity|].
  vm_compute. lia.
Defined.

Lemma missing_argument_reported_witness :
  Demo.processCommand Demo.parser1 (lit "move 45") [] []
  = (false,
     {| commandArgs := [asInt64 45; asString []; asString []; asString []];
        commandDefinitions := commandDefinitions Demo.parser1;
        numCommands := 1 |},
     lit "parse error: missing whitespace before arg 2", []).
Proof.
  apply (missing_argument_reported
    Demo.MAX_COMMANDS Demo.MAX_COMMAND_ARGS Demo.MAX_COMMAND_NAME_LENGTH
    Demo.MAX_COMMAND_ARG_SIZE Demo.MAX_RESPONSE_SIZE unit Demo.strtod
    Demo.World Demo.parser1 0%nat
    (mkCommand (lit "move") (lit "ii") (Some Demo.handler))
    ["i"%char] "i"%char [] [(0%nat, lit "45", asInt64 45)] [] []).
  - exact Demo_parser1_ok.
  - reflexivity.
  - reflexivity.
  - intros j d Hj. lia.
  - simpl. not_in_literal.
  - reflexivity.
  - constructor; [int_token|constructor].
Defined.

Lemma extra_text_reported_witness :
  Demo.processCommand Demo.parser1 (lit "move 1 2 3") [] []
  = (false,
     {| commandArgs := [asInt64 1; asInt64 2; asString []; asString []];
        commandDefinitions := commandDefinitions Demo.parser1;
        numCommands := 1 |},
     lit "parse error: too many args (expected 2)", []).
Proof.
  apply (extra_text_reported
    Demo.MAX_COMMANDS Demo.MAX_COMMAND_ARGS Demo.MAX_COMMAND_NAME_LENGTH
    Demo.MAX_COMMAND_ARG_SIZE Demo.MAX_RESPONSE_SIZE unit Demo.strtod
    Demo.World Demo.parser1 0%nat
    (mkCommand (lit "move") (lit "ii") (Some Demo.handler))
    [(0%nat, lit "1", asInt64 1); (0%nat, lit "2", asInt64 2)] 0%nat
    (lit "3") [] []).
  - exact Demo_parser1_ok.
  - reflexivity.
  - reflexivity.
  - intros j d Hj. lia.
  - simpl. not_in_literal.
  - constructor; [int_token|constructor; [int_token|constructor]].
  - discriminate.
  - discriminate.
Defined.

Lemma error_fits_response_buffer_witness :
  (length (snd (fst (Demo.processCommand Demo.parser1 (lit "invalid") [] [])))
   < Demo.MAX_RESPONSE_SIZE)%nat.
Proof.
  pose proof (error_fits_response_buffer Demo.MAX_COMMAND_NAME_LENGTH
    Demo.MAX_COMMAND_ARG_SIZE Demo.MAX_RESPONSE_SIZE unit Demo.strtod
    Demo.World Demo.parser1 (lit "invalid") [] []) as H.
  unfold Demo.processCommand.
  destruct (processCommand _ _ _ _ _ _ _ _) as [[[ok st'] response'] w']
    eqn:E.
  cbn [fst snd].
  destruct H as [[H _]|H].
  - vm_compute in E. now injection E as <- _ _ _.
  - discriminate H.
  - exact H.
Defined.

Lemma registered_command_is_reached_witness :
  Demo.processCommand Demo.parser1 (lit "move 45 -23") [] []
  = (true,
     {| commandArgs := [asInt64 45; asInt64 (-23); asString []; asString []];
        commandDefinitions := commandDefinitions Demo.parser1;
        numCommands := numCommands Demo.parser1 |},
     [], [[asInt64 45; asInt64 (-23); asString []; asString []]]).
Proof.
  apply (registered_command_is_reached
    Demo.MAX_COMMANDS Demo.MAX_COMMAND_ARGS Demo.MAX_COMMAND_NAME_LENGTH
    Demo.MAX_COMMAND_ARG_SIZE Demo.MAX_RESPONSE_SIZE unit Demo.strtod
    Demo.World Demo.parser0 Demo.parser1 (lit "move") (lit "ii")
    Demo.handler
    [(0%nat, lit "45", asInt64 45); (0%nat, lit "-23", asInt64 (-23))]
    0%nat [] []).
  - exact Demo_parser0_ok.
  - reflexivity.
  - reflexivity.
  - reflexivity.
  - simpl. not_in_literal.
  - constructor; [int_token|constructor; [int_token|constructor]].
Defined.

(** ** Hex escapes that are not two hex digits *)

Lemma Demo_strtol_c_hex_pair h1 h2 v1 v2 :
  hex_digit_value h1 = Some v1 -> hex_digit_value h2 = Some v2 ->
  Demo.strtol_c [h1; h2] 16 = (16 * v1 + v2, 2%nat).
Proof.
  intros H1 H2.
  each_ascii h1; vm_compute in H1; try discriminate H1;
    injection H1 as <-; unfold Demo.strtol_c; simpl; rewrite H2;
    simpl; f_equal; lia.
Qed.

Section HexEscapes.

Variable MAX_COMMAND_ARG_SIZE : nat.
Variable strtol : cstring -> Z -> Z * nat.

(** The hex loop of this version returns 0 at the first byte behind \x
    that is no hex digit, the terminator included. *)
Lemma parseString_malformed_hex ps tl :
  Forall quoted_piece ps ->
  hex_digit_value (peek tl) = None
  \/ hex_digit_value (peek (tail tl)) = None ->
  fst (parseString MAX_COMMAND_ARG_SIZE
         (QUOTE :: encode_all ps ++ BACKSLASH :: "x"%char :: tl)) = 0%nat.
Proof.
  intros Hps Hhex. rewrite parseString_open_quote.
  destruct (le_lt_dec (length ps) MAX_COMMAND_ARG_SIZE) as [Hn|Hn].
  - rewrite parseString_loop_pieces by assumption.
    destruct (MAX_COMMAND_ARG_SIZE - length ps)%nat as [|n]; [reflexivity|].
    cbn [parseString_loop peek tail Ascii.eqb Bool.eqb BACKSLASH QUOTE NUL
         Ascii.zero].
    rewrite !hex_step_spec.
    destruct (hex_digit_value (peek tl)) as [v1|]; [|reflexivity].
    rewrite hex_step_spec.
    destruct (hex_digit_value (peek (tail tl))) as [v2|]; [|reflexivity].
    destruct Hhex; discriminate.
  - destruct (parseString_loop_overrun ps MAX_COMMAND_ARG_SIZE
      (BACKSLASH :: "x"%char :: tl) 1%nat [] Hps Hn)
      as (c' & b & r & o & -> & Hq).
    simpl. now rewrite (eqb_false_of_neq _ _ Hq).
Qed.

(** The check behind [strtol] in the earlier version passes whenever
    [strtol] has read both bytes of [hexCode], whatever they are. *)
Lemma legacy_hex_read_whole ps c d v rest :
  (forall h1 h2 v1 v2,
     hex_digit_value h1 = Some v1 -> hex_digit_value h2 = Some v2 ->
     strtol [h1; h2] 16 = (16 * v1 + v2, 2%nat)) ->
  Forall quoted_piece ps -> (length ps < MAX_COMMAND_ARG_SIZE)%nat ->
  c <> NUL -> d <> NUL -> strtol [c; d] 16 = (v, 2%nat) ->
  Legacy.parseString MAX_COMMAND_ARG_SIZE strtol
    (QUOTE :: encode_all ps
     ++ BACKSLASH :: "x"%char :: c :: d :: QUOTE :: rest)
  = Some (6 + length (encode_all ps), map decode ps ++ [to_char v])%nat.
Proof.
  intros Hstrtol Hps Hn Hc Hd Hv. rewrite legacy_open_quote.
  rewrite (legacy_loop_pieces strtol Hstrtol) by (assumption || lia).
  destruct (MAX_COMMAND_ARG_SIZE - length ps)%nat as [|n] eqn:E; [lia|].
  cbn [Legacy.parseString_loop peek tail Ascii.eqb Bool.eqb BACKSLASH QUOTE
       NUL Ascii.zero orb].
  rewrite (c_str_id [c; d]).
  - rewrite Hv. cbn [Nat.eqb drop peek orb negb Ascii.eqb Bool.eqb NUL
                     Ascii.zero].
    destruct n as [|n]; simpl; do 2 f_equal; lia.
  - rewrite !not_elem_of_cons. repeat split; try congruence.
    apply not_elem_of_nil.
Qed.

(** C8.  A \x that is not followed by two hex digits.  In this version
    of [parseString] the quoted string fails to parse (count 0), where
    ever in the body the escape stands and whatever the two bytes are,
    the line terminator included.  The earlier version hands the two
    bytes to [strtol] and checks only that [strtol] has read both: the
    string is then accepted, with the value that [strtol] gives stored
    as one byte.  Since [strtol] skips white space and reads a sign, a
    space or a sign followed by one hex digit is accepted there. *)
Theorem hex_escape_strictness (ps : list Piece) :
  (forall h1 h2 v1 v2,
     hex_digit_value h1 = Some v1 -> hex_digit_value h2 = Some v2 ->
     strtol [h1; h2] 16 = (16 * v1 + v2, 2%nat)) ->
  Forall quoted_piece ps ->
  (forall tl,
     hex_digit_value (peek tl) = None
     \/ hex_digit_value (peek (tail tl)) = None ->
     fst (parseString MAX_COMMAND_ARG_SIZE
            (QUOTE :: encode_all ps ++ BACKSLASH :: "x"%char :: tl)) = 0%nat)
  /\ ((length ps < MAX_COMMAND_ARG_SIZE)%nat ->
      forall c d v rest,
        c <> NUL -> d <> NUL -> strtol [c; d] 16 = (v, 2%nat) ->
        Legacy.parseString MAX_COMMAND_ARG_SIZE strtol
          (QUOTE :: encode_all ps
           ++ BACKSLASH :: "x"%char :: c :: d :: QUOTE :: rest)
        = Some (6 + length (encode_all ps),
                map decode ps ++ [to_char v])%nat).
Proof.
  intros Hstrtol Hps. split.
  - intros tl. now apply parseString_malformed_hex.
  - intros Hn c d v rest. now apply legacy_hex_read_whole.
Qed.

End HexEscapes.

Lemma hex_escape_strictness_witness :
  fst (parseString Demo.MAX_COMMAND_ARG_SIZE
         (QUOTE :: BACKSLASH :: lit "x 1" ++ [QUOTE])) = 0%nat
  /\ Legacy.parseString Demo.MAX_COMMAND_ARG_SIZE Demo.strtol_c
       (QUOTE :: BACKSLASH :: lit "x 1" ++ [QUOTE])
     = Some (6%nat, ["001"%char])
  /\ Legacy.parseString Demo.MAX_COMMAND_ARG_SIZE Demo.strtol_c
       (QUOTE :: BACKSLASH :: lit "x-1" ++ [QUOTE])
     = Some (6%nat, ["255"%char]).
Proof.
  pose proof (hex_escape_strictness Demo.MAX_COMMAND_ARG_SIZE
    Demo.strtol_c [] Demo_strtol_c_hex_pair ltac:(constructor))
    as [Hnew Hold].
  split; [|split].
  - apply (Hnew (lit " 1" ++ [QUOTE])). left. reflexivity.
  - apply (Hold ltac:(vm_compute; lia) SPACE "1"%char 1 []);
      [discriminate | discriminate | reflexivity].
  - apply (Hold ltac:(vm_compute; lia) "-"%char "1"%char (-1) []);
      [discriminate | discriminate | reflexivity].
Defined.
